(** * The chunk-then-summarize pipeline of the PDF summarizer

    A shallow embedding of [summarizer/app.py] (the Streamlit UI) and of
    [summarizer/summarize_pdf.py] (its command-line twin), and the
    properties of the chunker and of the hierarchical summarizer.

    Python's [str] is a sequence of Unicode code points, [int] is
    unbounded: texts are lists of code points, integers are [Z].  An
    exception is a left injection; the summarization model is an external
    collaborator and enters as an interface ([Transformers]). *)

From Stdlib Require Import String Ascii List ZArith Lia Bool.
Import ListNotations.
Open Scope Z_scope.

(** ** Python built-ins used by the two scripts *)
Module Py.

(** A character is its code point. *)
Definition char := N.
Definition str := list char.

Definition of_string (s : string) : str :=
  map N_of_ascii (list_ascii_of_string s).

(** Built-in exceptions the embedded code can raise by itself. *)
Inductive builtin_exn := ValueError | IndexError.

(** [str.isspace] on one character, the test behind [str.split()] and
    [str.strip()] when they are called without argument. *)
Definition Py_UNICODE_ISSPACE (c : char) : bool :=
  (((9 <=? c) && (c <=? 13)) || ((28 <=? c) && (c <=? 32))
   || (c =? 133) || (c =? 160) || (c =? 5760)
   || ((8192 <=? c) && (c <=? 8202))
   || (c =? 8232) || (c =? 8233) || (c =? 8239) || (c =? 8287)
   || (c =? 12288))%N.

Definition SPACE : str := [32%N].

(** [len(x)] *)
Definition len {A} (l : list A) : Z := Z.of_nat (List.length l).

(** [bool(x)] of a sequence: non-empty. *)
Definition truthy {A} (l : list A) : bool :=
  match l with [] => false | _ :: _ => true end.

(** [text.split()]: the scanner skips a run of whitespace, then collects a
    run of other characters; [cur] is the word collected so far. *)
Fixpoint split_whitespace (cur : str) (s : str) : list str :=
  match s with
  | [] => match cur with [] => [] | _ :: _ => [cur] end
  | c :: s' =>
      if Py_UNICODE_ISSPACE c
      then match cur with
           | [] => split_whitespace [] s'
           | _ :: _ => cur :: split_whitespace [] s'
           end
      else split_whitespace (cur ++ [c]) s'
  end.

Definition split (s : str) : list str := split_whitespace [] s.

(** [sep.join(parts)] *)
Fixpoint join (sep : str) (parts : list str) : str :=
  match parts with
  | [] => []
  | [p] => p
  | p :: rest => p ++ sep ++ join sep rest
  end.

(** [text.strip()] *)
Fixpoint lstrip (s : str) : str :=
  match s with
  | [] => []
  | c :: s' => if Py_UNICODE_ISSPACE c then lstrip s' else s
  end.

Definition rstrip (s : str) : str := rev (lstrip (rev s)).

Definition strip (s : str) : str := rstrip (lstrip s).

(** [range(start, stop, step)]: a zero step raises [ValueError]; the
    length is the one of CPython's [compute_range_length]. *)
Definition range_length (lo hi step : Z) : nat :=
  if lo <? hi then Z.to_nat ((hi - lo - 1) / step + 1) else O.

Definition range (start stop step : Z) : builtin_exn + list Z :=
  if step =? 0 then inl ValueError
  else
    let n := if 0 <? step then range_length start stop step
             else range_length stop start (- step) in
    inr (map (fun k => start + Z.of_nat k * step) (seq 0 n)).

(** [l[i:j]]: negative indices count from the end, everything is clipped
    to the list. *)
Definition clip (n k : Z) : Z :=
  if k <? 0 then Z.max (k + n) 0 else Z.min k n.

Definition slice {A} (l : list A) (i j : Z) : list A :=
  let lo := clip (len l) i in
  let hi := clip (len l) j in
  firstn (Z.to_nat (hi - lo)) (skipn (Z.to_nat lo) l).

(** [s == t] on strings *)
Fixpoint str_eqb (s t : str) : bool :=
  match s, t with
  | [], [] => true
  | c :: s', d :: t' => (c =? d)%N && str_eqb s' t'
  | _, _ => false
  end.

(** [l[i]] *)
Definition index {A} (l : list A) (i : Z) : builtin_exn + A :=
  let k := if i <? 0 then i + len l else i in
  if k <? 0 then inl IndexError
  else match nth_error l (Z.to_nat k) with
       | Some x => inr x
       | None => inl IndexError
       end.

End Py.
Import Py.

(** ** The summarization capability

    [pipeline("summarization", model=m)] of the transformers library, and
    the call of the object it returns.  Building the pipeline for a model
    works or raises, and may change the library's state; a call consumes
    a text and the two length bounds, may change the library's state, and
    yields the [summary_text] of the first result or raises. *)
Class Transformers := {
  lib_state : Type;
  lib_error : Type;
  load_model : str -> lib_state -> option lib_error * lib_state;
  run_model : str -> lib_state -> str -> Z -> Z -> (lib_error + str) * lib_state
}.

Section Effects.
Context {T : Transformers}.

(** An exception is one of Python's own, or one of the library, raised
    while a pipeline is built or while a summarizer runs. *)
Inductive exn :=
| Builtin (e : builtin_exn)
| ModelLoadFailure (e : lib_error)
| CapabilityFailure (e : lib_error).

(** One call of a summarizer, as it was made and as it ended. *)
Record call := Call {
  call_model : str;
  call_text : str;
  call_max_length : Z;
  call_min_length : Z;
  call_outcome : lib_error + str
}.

(** The argument list of a call of [get_summarizer], which is what
    Streamlit's cache goes by: no argument, or the model name. *)
Definition cache_key := option str.

Definition cache_key_eqb (k1 k2 : cache_key) : bool :=
  match k1, k2 with
  | None, None => true
  | Some m1, Some m2 => str_eqb m1 m2
  | _, _ => false
  end.

(** What a run can change: the library's state, the argument lists for
    which Streamlit holds a cached summarizer, the models a pipeline was
    asked for, and the calls made so far, oldest first. *)
Record world := World {
  lib : lib_state;
  cache : list cache_key;
  requested : list str;
  calls : list call
}.

(** A computation that may raise and that threads the world; an
    exception keeps the effects made before it. *)
Definition M (A : Type) : Type := world -> (exn + A) * world.

Definition ret {A} (a : A) : M A := fun w => (inr a, w).

Definition raise {A} (e : exn) : M A := fun w => (inl e, w).

Definition bind {A B} (m : M A) (k : A -> M B) : M B :=
  fun w =>
    match m w with
    | (inl e, w') => (inl e, w')
    | (inr a, w') => k a w'
    end.

Definition lift {A} (r : builtin_exn + A) : M A :=
  match r with
  | inl e => raise (Builtin e)
  | inr a => ret a
  end.

(** A summarizer object is the pipeline of one model. *)
Definition summarizer := str.

(** [pipeline("summarization", model=model_name)] *)
Definition pipeline (model_name : str) : M summarizer :=
  fun w =>
    let (r, st) := load_model model_name (lib w) in
    let w' := World st (cache w) (requested w ++ [model_name]) (calls w) in
    match r with
    | Some e => (inl (ModelLoadFailure e), w')
    | None => (inr model_name, w')
    end.

(** [s(text, max_length=.., min_length=.., do_sample=False)[0]["summary_text"]] *)
Definition summarize (s : summarizer) (text : str)
    (max_length min_length : Z) : M str :=
  fun w =>
    let (out, st) := run_model s (lib w) text max_length min_length in
    let w' := World st (cache w) (requested w)
                (calls w ++ [Call s text max_length min_length out]) in
    match out with
    | inl e => (inl (CapabilityFailure e), w')
    | inr t => (inr t, w')
    end.

End Effects.

Notation "x <- m ;; k" := (bind m (fun x => k))
  (at level 61, m at next level, right associativity).

Definition DEFAULT_MODEL : str := Eval cbv in of_string "facebook/bart-large-cnn".

(** ** The PDF reader

    [PdfReader(file)] of PyPDF2 raises or gives the pages of the file;
    [page.extract_text()] raises, or returns the text of the page, or
    nothing. *)
Module Pdf.

Inductive extraction (E : Type) : Type :=
| Raised (e : E)
| Extracted (t : option str).
Arguments Raised {E} e.
Arguments Extracted {E} t.

Definition reader (E : Type) : Type := E + list (extraction E).

Definition NEWLINE : str := [10%N].

(** [t or ""] *)
Definition or_empty (t : option str) : str :=
  match t with
  | Some t => t
  | None => []
  end.

End Pdf.
Import Pdf.

(** ** summarizer/app.py *)
Module App.

(** The loop keeps going over a page that cannot be read. *)
Definition extract_text_from_pdf {E} (uploaded_file : reader E) : E + str :=
  match uploaded_file with
  | inl e => inl e
  | inr pages =>
      let parts :=
        fold_left
          (fun parts page =>
             match page with
             | Raised _ => parts
             | Extracted t => parts ++ [or_empty t]
             end)
          pages [] in
      inr (strip (join NEWLINE parts))
  end.

Section WithTransformers.
Context {T : Transformers}.

(** The loop body appends the chunk when it is not blank. *)
Definition chunk_text (text : str) (max_words : Z) : builtin_exn + list str :=
  let words := split text in
  match range 0 (len words) max_words with
  | inl e => inl e
  | inr indices =>
      inr (fold_left
             (fun chunks i =>
                let chunk := join SPACE (slice words i (i + max_words)) in
                if truthy (strip chunk) then chunks ++ [chunk] else chunks)
             indices [])
  end.

(** Whether Streamlit holds a summarizer for this argument list. *)
Definition cached (key : cache_key) (w : world) : bool :=
  existsb (cache_key_eqb key) (cache w).

(** The default of the [model_name] parameter applies when no argument is
    passed.  The function is decorated with [st.cache_resource]: a call
    with an argument list seen before returns the summarizer built then;
    another call builds the pipeline and, when that works, the cache
    keeps it under the argument list of the call. *)
Definition get_summarizer (model_name : option str) : M summarizer :=
  fun w =>
    let model := match model_name with Some m => m | None => DEFAULT_MODEL end in
    if cached model_name w then (inr model, w)
    else
      match pipeline model w with
      | (inl e, w') => (inl e, w')
      | (inr s, w') =>
          (inr s, World (lib w') (model_name :: cache w') (requested w') (calls w'))
      end.

(** [get_summarizer.clear()] *)
Definition get_summarizer_clear : M unit :=
  fun w => (inr tt, World (lib w) [] (requested w) (calls w)).

(** The guardrail on the length bounds of one chunk. *)
Definition chunk_max_length (max_length : Z) (ch : str) : Z :=
  Z.max 32 (Z.min max_length (Z.max 64 (len (split ch) / 2))).

Definition chunk_min_length (min_length ml : Z) : Z :=
  Z.max 16 (Z.min min_length (ml - 16)).

(** The [for] loop of [summarize_chunks], from the summaries collected so
    far. *)
Fixpoint summarize_loop (s : summarizer) (max_length min_length : Z)
    (chunks : list str) (summaries : list str) : M (list str) :=
  match chunks with
  | [] => ret summaries
  | ch :: rest =>
      let ml := chunk_max_length max_length ch in
      let mn := chunk_min_length min_length ml in
      out <- summarize s ch ml mn ;;
      summarize_loop s max_length min_length rest (summaries ++ [out])
  end.

(** [kwargs] holds at most the key [model_name]. *)
Definition summarize_chunks (chunks : list str)
    (max_length min_length : Z) (kwargs : option str) : M (list str) :=
  s <- get_summarizer (Some (match kwargs with
                             | Some m => m
                             | None => DEFAULT_MODEL
                             end)) ;;
  summarize_loop s max_length min_length chunks [].

Definition summarize_pdf_text (text : str) (per_chunk_words : Z)
    (final_pass : bool) : M (str * list str) :=
  if negb (truthy text) || negb (truthy (strip text)) then ret ([], [])
  else
    chunks <- lift (chunk_text text per_chunk_words) ;;
    if len chunks =? 0 then ret ([], [])
    else
      chunk_summaries <- summarize_chunks chunks 160 60 None ;;
      let joined := join SPACE chunk_summaries in
      if final_pass && (1 <? len chunk_summaries) then
        s <- get_summarizer None ;;
        final <- summarize s joined 220 90 ;;
        ret (final, chunk_summaries)
      else
        final <- lift (index chunk_summaries 0) ;;
        ret (final, chunk_summaries).

(** What the script does when the Summarize button is pressed, from the
    extracted text and the settings of the sidebar: it clears the cache,
    asks for the summarizer of the selected model, then runs the
    pipeline. *)
Definition summarize_button (model_name raw_text : str) (per_chunk_words : Z)
    (final_pass : bool) : M (str * list str) :=
  _ <- get_summarizer_clear ;;
  _ <- get_summarizer (Some model_name) ;;
  summarize_pdf_text raw_text per_chunk_words final_pass.

End WithTransformers.
End App.

(** ** summarizer/summarize_pdf.py *)
Module Cli.

(** The loop of [extract_text]: a page that cannot be read ends it. *)
Fixpoint extract_parts {E} (pages : list (extraction E)) (parts : list str)
    : E + list str :=
  match pages with
  | [] => inr parts
  | Raised e :: _ => inl e
  | Extracted t :: rest => extract_parts rest (parts ++ [or_empty t])
  end.

Definition extract_text {E} (path : reader E) : E + str :=
  match path with
  | inl e => inl e
  | inr pages =>
      match extract_parts pages [] with
      | inl e => inl e
      | inr parts => inr (strip (join NEWLINE parts))
      end
  end.

Section WithTransformers.
Context {T : Transformers}.

(** The comprehension keeps the index whose slice of words is not empty. *)
Definition chunk_text (text : str) (max_words : Z) : builtin_exn + list str :=
  let words := split text in
  match range 0 (len words) max_words with
  | inl e => inl e
  | inr indices =>
      inr (map (fun i => join SPACE (slice words i (i + max_words)))
             (filter (fun i => truthy (slice words i (i + max_words))) indices))
  end.

Fixpoint summarize_loop (s : summarizer) (chunks : list str)
    (summaries : list str) : M (list str) :=
  match chunks with
  | [] => ret summaries
  | ch :: rest =>
      out <- summarize s ch 160 60 ;;
      summarize_loop s rest (summaries ++ [out])
  end.

(** [main] from the extracted text on: [text] is what [extract_text]
    returned, the other arguments are the parsed options.  The result is
    the text printed under the final-summary banner, or [None] when the
    script stops at the no-text message. *)
Definition main (text : str) (model : str) (chunk : Z)
    (final_pass : bool) : M (option str) :=
  if negb (truthy text) then ret None
  else
    chunks <- lift (chunk_text text chunk) ;;
    s <- pipeline model ;;
    summaries <- summarize_loop s chunks [] ;;
    let final := join SPACE summaries in
    if final_pass && (1 <? len summaries) then
      final' <- summarize s final 220 90 ;;
      ret (Some final')
    else ret (Some final).

End WithTransformers.
End Cli.

(** ** A capability to run the pipeline on

    It summarizes a text by its first character, raises on a text that
    starts with an exclamation mark, refuses the model of the empty name,
    and counts its calls. *)
Module Stub.

Definition headline : Transformers := {|
  lib_state := nat;
  lib_error := nat;
  load_model := fun m st => (match m with [] => Some O | _ :: _ => None end, st);
  run_model := fun _ st text _ _ =>
    (match text with
     | [] => inr []
     | c :: _ => if (c =? 33)%N then inl st else inr [c]
     end, S st)
|}.

Definition fresh : @world headline := @World headline O [] [] [].

(** Texts and a model name to run it on. *)
Definition a_b : str := of_string "a b".
Definition a : str := of_string "a".
Definition b : str := of_string "b".
Definition m : str := of_string "m".

(** The worlds the two passes over the chunks of [a_b], one word each,
    leave behind. *)
Definition ui_pass : @world headline :=
  snd (@App.summarize_chunks headline [a; b] 160 60 None fresh).

Definition cli_loaded : @world headline := snd (@pipeline headline m fresh).

Definition cli_pass : @world headline :=
  snd (@Cli.summarize_loop headline m [a; b] [] cli_loaded).

End Stub.

(** ** Vocabulary of the properties *)
Module Words.

Definition nonspace (c : char) : Prop := Py_UNICODE_ISSPACE c = false.

Definition blank (c : char) : Prop := Py_UNICODE_ISSPACE c = true.

(** A word, as [split] produces them: not empty, no whitespace inside. *)
Definition is_word (w : str) : Prop := w <> [] /\ Forall nonspace w.

(** The word sequence of a list of chunks, in order. *)
Definition word_sequence (chunks : list str) : list str :=
  concat (map split chunks).

(** The number of words of a chunk. *)
Definition word_count (chunk : str) : Z := len (split chunk).

(** The [cnt] first windows of [m] elements over [l]. *)
Definition windows {A} (m : nat) (l : list A) (cnt : nat) : list (list A) :=
  map (fun k => firstn m (skipn (k * m) l)) (seq 0 cnt).

(** All chunks but the last hold [max_words] words, the last between one
    and [max_words], and none is the empty string. *)
Definition well_sized (max_words : Z) (chunks : list str) : Prop :=
  forall k chunk, nth_error chunks k = Some chunk ->
    chunk <> []
    /\ (S k < List.length chunks -> word_count chunk = max_words)%nat
    /\ (S k = List.length chunks -> 1 <= word_count chunk <= max_words).

(** The standard clamp of [x] into the interval from [lo] to [hi], as
    the description of the length policy uses it. *)
Definition clamp (x lo hi : Z) : Z :=
  if x <? lo then lo else if hi <? x then hi else x.

End Words.
Import Words.

(** ** Vocabulary of the runs *)
Section Traces.
Context {T : Transformers}.

(** The model of the summarizer that [get_summarizer] returns for an
    argument list. *)
Definition model_of (key : cache_key) : str :=
  match key with
  | Some m => m
  | None => DEFAULT_MODEL
  end.

Definition succeeded (c : call) : Prop := exists t, call_outcome c = inr t.

(** The summaries a list of calls returned, in order. *)
Definition summaries_of (cs : list call) : list str :=
  flat_map (fun c => match call_outcome c with inr t => [t] | inl _ => [] end) cs.

(** The calls of a run and its result agree: either every call returned
    and the result is not a failure of the capability, or the last call
    raised, the ones before it returned, and the result is that
    exception. *)
Definition disciplined {A} (cs : list call) (r : exn + A) : Prop :=
  (Forall succeeded cs /\ forall e, r <> inl (CapabilityFailure e))
  \/ (exists pre c e, cs = pre ++ [c] /\ Forall succeeded pre
        /\ call_outcome c = inl e /\ r = inl (CapabilityFailure e)).

Definition keeps_discipline {A} (m : M A) : Prop :=
  forall w, exists cs,
    calls (snd (m w)) = calls w ++ cs /\ disciplined cs (fst (m w)).

(** A run fails fast: a call that raises is the last call of the run, and
    its exception is the result. *)
Definition fails_fast {A} (m : M A) : Prop :=
  forall w r w' pre c post e,
    m w = (r, w') ->
    calls w' = calls w ++ pre ++ c :: post ->
    call_outcome c = inl e ->
    post = [] /\ Forall succeeded pre /\ r = inl (CapabilityFailure e).

(** A run asks for, and calls, the pipeline of one model only. *)
Definition uses_only {A} (model : str) (m : M A) : Prop :=
  forall w, exists rs cs,
    requested (snd (m w)) = requested w ++ rs
    /\ calls (snd (m w)) = calls w ++ cs
    /\ Forall (eq model) rs
    /\ Forall (fun c => call_model c = model) cs.

(** The length bounds of a call follow the adaptive policy for the
    configured bounds. *)
Definition within_policy (max_length min_length : Z) (c : call) : Prop :=
  let w := word_count (call_text c) in
  let ml := call_max_length c in
  let mn := call_min_length c in
  16 <= mn < ml /\ ml <= max_length /\ 32 <= ml
  /\ ml = clamp (Z.max 64 (w / 2)) 32 max_length
  /\ mn = clamp min_length 16 (ml - 16).

(** The loop over the chunks, for any policy of length bounds. *)
Fixpoint loop_with (bounds : str -> Z * Z) (s : summarizer)
    (chunks : list str) (summaries : list str) : M (list str) :=
  match chunks with
  | [] => ret summaries
  | ch :: rest =>
      out <- summarize s ch (fst (bounds ch)) (snd (bounds ch)) ;;
      loop_with bounds s rest (summaries ++ [out])
  end.

Definition app_bounds (max_length min_length : Z) (ch : str) : Z * Z :=
  let ml := App.chunk_max_length max_length ch in
  (ml, App.chunk_min_length min_length ml).

Definition cli_bounds (ch : str) : Z * Z := (160, 60).

End Traces.

(** ** Vocabulary of the further properties *)
Module More.

(** The texts of the pages that could be read, in order. *)
Definition readable {E} (pages : list (extraction E)) : list str :=
  flat_map (fun page => match page with
                        | Raised _ => []
                        | Extracted t => [or_empty t]
                        end) pages.

Definition unreadable {E} (page : extraction E) : Prop :=
  match page with Raised _ => True | Extracted _ => False end.

(** A text with no whitespace at either end. *)
Definition stripped (s : str) : Prop :=
  match s with
  | [] => True
  | c :: rest => nonspace c /\ nonspace (last rest c)
  end.

(** [ceil(n / m)] for a positive [m]. *)
Definition ceil_div (n m : Z) : Z := (n + m - 1) / m.

Section WithTransformers.
Context {T : Transformers}.


(** Every call that a run makes satisfies [P]. *)
Definition calls_satisfy {A} (P : call -> Prop) (m : M A) : Prop :=
  forall w, exists cs,
    calls (snd (m w)) = calls w ++ cs /\ Forall P cs.


(** The call made for a chunk, with its bounds and the summary it
    returned. *)
Definition chunk_call (bounds : str -> Z * Z) (s : summarizer)
    (chunk summary : str) : call :=
  Call s chunk (fst (bounds chunk)) (snd (bounds chunk)) (inr summary).

Definition chunk_calls (bounds : str -> Z * Z) (s : summarizer)
    (chunks summaries : list str) : list call :=
  map (fun p => chunk_call bounds s (fst p) (snd p)) (combine chunks summaries).

End WithTransformers.

(** A file of three pages, the second of which cannot be read, and the
    same file without that page. *)
Definition damaged : reader nat :=
  inr [Extracted (Some (of_string " one two"));
       Raised 7%nat;
       Extracted None;
       Extracted (Some (of_string "three "))].

Definition sound : reader nat :=
  inr [Extracted (Some (of_string " one two"));
       Extracted None;
       Extracted (Some (of_string "three "))].

End More.
Import More.

(** ** Facts on the built-ins *)
Module PyFacts.

Lemma split_whitespace_run (w s cur : str) :
  Forall nonspace w ->
  split_whitespace cur (w ++ s) = split_whitespace (cur ++ w) s.
Proof.
  intros Hw. revert cur. induction Hw as [|c w Hc _ IH]; intros cur.
  - now rewrite app_nil_r.
  - simpl. rewrite Hc, IH, <- app_assoc. reflexivity.
Qed.

Lemma split_whitespace_words (s cur : str) :
  Forall nonspace cur -> Forall is_word (split_whitespace cur s).
Proof.
  revert cur. induction s as [|c s IH]; intros cur Hcur; simpl.
  - destruct cur; constructor; [split; [discriminate | assumption] | constructor].
  - destruct (Py_UNICODE_ISSPACE c) eqn:Hc.
    + destruct cur as [|a cur].
      * apply IH. constructor.
      * constructor; [split; [discriminate | assumption] | apply IH; constructor].
    + apply IH. apply Forall_app. split; [assumption | now repeat constructor].
Qed.

Lemma split_words (s : str) : Forall is_word (split s).
Proof. apply split_whitespace_words. constructor. Qed.

Lemma split_word_alone (w : str) : is_word w -> split_whitespace [] w = [w].
Proof.
  intros [Hne Hw]. rewrite <- (app_nil_r w) at 1.
  rewrite split_whitespace_run by assumption. simpl.
  destruct w; [contradiction | reflexivity].
Qed.

(** Splitting what was joined by single spaces gives the words back. *)
Lemma split_join (ws : list str) :
  Forall is_word ws -> split (join SPACE ws) = ws.
Proof.
  unfold split. induction 1 as [|w ws Hw Hws IH]; [reflexivity|].
  destruct ws as [|w2 ws].
  - simpl. now apply split_word_alone.
  - change (join SPACE (w :: w2 :: ws)) with (w ++ SPACE ++ join SPACE (w2 :: ws)).
    destruct Hw as [Hne Hw]. rewrite split_whitespace_run by assumption.
    change (SPACE ++ join SPACE (w2 :: ws)) with (32%N :: join SPACE (w2 :: ws)).
    rewrite app_nil_l. cbn [split_whitespace].
    change (Py_UNICODE_ISSPACE 32%N) with true. cbv iota.
    destruct w; [contradiction|]. now rewrite IH.
Qed.

Lemma lstrip_keeps (s : str) : Exists nonspace s -> lstrip s <> [].
Proof.
  induction 1 as [c s Hc | c s _ IH]; simpl.
  - rewrite Hc. discriminate.
  - destruct (Py_UNICODE_ISSPACE c); [assumption | discriminate].
Qed.

Lemma lstrip_exists (s : str) : Exists nonspace s -> Exists nonspace (lstrip s).
Proof.
  induction 1 as [c s Hc | c s Hs IH]; simpl.
  - rewrite Hc. now constructor.
  - destruct (Py_UNICODE_ISSPACE c); [assumption | now apply Exists_cons_tl].
Qed.

Lemma strip_keeps (s : str) : Exists nonspace s -> truthy (strip s) = true.
Proof.
  intros H. unfold strip, rstrip.
  assert (Hr : lstrip (rev (lstrip s)) <> []).
  { apply lstrip_keeps, Exists_exists.
    apply lstrip_exists, Exists_exists in H. destruct H as [c [Hin Hc]].
    exists c. split; [now apply in_rev in Hin | assumption]. }
  destruct (lstrip (rev (lstrip s))) as [|a l] eqn:E; [contradiction|].
  simpl. destruct (rev l ++ [a]) eqn:E'; [now destruct (rev l) | reflexivity].
Qed.

(** A chunk made of at least one word is not blank. *)
Lemma strip_join (ws : list str) :
  Forall is_word ws -> ws <> [] -> truthy (strip (join SPACE ws)) = true.
Proof.
  intros Hws Hne. apply strip_keeps.
  destruct Hws as [|w ws [Hw Hns] _]; [contradiction|].
  destruct Hns as [|c w Hc _]; [contradiction|].
  destruct ws; simpl; now constructor.
Qed.

Lemma truthy_true {A} (l : list A) : truthy l = true <-> l <> [].
Proof. destruct l; simpl; split; intros; congruence. Qed.

End PyFacts.

(** ** Ranges, slices and windows *)
Module WindowFacts.

Lemma range_step_positive (n m : Z) :
  0 < m ->
  range 0 n m = inr (map (fun k => Z.of_nat k * m) (seq 0 (range_length 0 n m))).
Proof.
  intros Hm. unfold range.
  destruct (Z.eqb_spec m 0) as [->|_]; [lia|].
  destruct (Z.ltb_spec 0 m); [reflexivity | lia].
Qed.

Lemma range_step_negative (n m : Z) : m < 0 -> 0 <= n -> range 0 n m = inr [].
Proof.
  intros Hm Hn. unfold range, range_length.
  destruct (Z.eqb_spec m 0) as [->|_]; [lia|].
  destruct (Z.ltb_spec 0 m); [lia|].
  destruct (Z.ltb_spec n 0); [lia | reflexivity].
Qed.

(** The number of indices covers the list, with no index to spare. *)
Lemma range_length_covers (n m : Z) :
  0 < m -> 0 <= n ->
  let c := Z.of_nat (range_length 0 n m) in
  n <= c * m /\ (0 < n -> (c - 1) * m < n /\ 1 <= c) /\ (n = 0 -> c = 0).
Proof.
  intros Hm Hn. unfold range_length.
  destruct (Z.ltb_spec 0 n) as [Hpos|Hz]; cbv zeta.
  - replace (n - 0 - 1) with (n - 1) by lia.
    assert (Hq : 0 <= (n - 1) / m) by (apply Z.div_pos; lia).
    rewrite Z2Nat.id by lia.
    pose proof (Z.div_mod (n - 1) m ltac:(lia)) as Hdm.
    pose proof (Z.mod_pos_bound (n - 1) m Hm) as Hb.
    repeat split; try nia.
  - change (Z.of_nat 0) with 0. repeat split; lia.
Qed.

Lemma slice_forward {A} (l : list A) (i m : Z) :
  0 <= i -> 0 < m ->
  slice l i (i + m) = firstn (Z.to_nat m) (skipn (Z.to_nat i) l).
Proof.
  intros Hi Hm. unfold slice, clip, len.
  destruct (Z.ltb_spec i 0); [lia|].
  destruct (Z.ltb_spec (i + m) 0); [lia|].
  set (n := Z.of_nat (List.length l)).
  destruct (Z.le_gt_cases (i + m) n) as [Hfit|Hover].
  - rewrite !Z.min_l by lia. f_equal. lia.
  - destruct (Z.le_gt_cases n i) as [Hout|Hin].
    + rewrite !Z.min_r by lia. rewrite Z.sub_diag. simpl firstn.
      rewrite (skipn_all2 (n := Z.to_nat i)) by (unfold n in Hout; lia).
      now rewrite firstn_nil.
    + rewrite (Z.min_r (i + m) n), (Z.min_l i n) by lia.
      rewrite !firstn_all2; [reflexivity | |]; rewrite length_skipn;
        unfold n in *; lia.
Qed.

Lemma firstn_plus {A} (a b : nat) (l : list A) :
  firstn (a + b) l = firstn a l ++ firstn b (skipn a l).
Proof.
  revert l. induction a as [|a IH]; intros l; [reflexivity|].
  destruct l as [|x l]; simpl.
  - now rewrite firstn_nil.
  - now rewrite IH.
Qed.

Lemma windows_S {A} (m : nat) (l : list A) (c : nat) :
  windows m l (S c) = windows m l c ++ [firstn m (skipn (c * m) l)].
Proof. unfold windows. now rewrite seq_S, map_app. Qed.

Lemma length_windows {A} (m : nat) (l : list A) (c : nat) :
  List.length (windows m l c) = c.
Proof. unfold windows. now rewrite length_map, length_seq. Qed.

Lemma nth_error_windows {A} (m : nat) (l : list A) (c k : nat) (x : list A) :
  nth_error (windows m l c) k = Some x ->
  (k < c)%nat /\ x = firstn m (skipn (k * m) l).
Proof.
  unfold windows. intros H.
  assert (Hk : (k < c)%nat).
  { rewrite <- (length_seq c 0), <- (length_map (fun k => firstn m (skipn (k * m) l))).
    apply nth_error_Some. congruence. }
  split; [assumption|].
  rewrite nth_error_map, nth_error_seq in H.
  destruct (Nat.ltb_spec k c); [|lia]. simpl in H. congruence.
Qed.

(** The windows laid end to end are a prefix of the list. *)
Lemma concat_windows {A} (m : nat) (l : list A) (c : nat) :
  concat (windows m l c) = firstn (c * m) l.
Proof.
  induction c as [|c IH]; [reflexivity|].
  rewrite windows_S, concat_app, IH. simpl concat. rewrite app_nil_r.
  now rewrite <- firstn_plus, Nat.add_comm.
Qed.

Lemma In_firstn {A} (n : nat) (l : list A) (x : A) : In x (firstn n l) -> In x l.
Proof.
  intros H. rewrite <- (firstn_skipn n l). apply in_or_app. now left.
Qed.

Lemma In_skipn {A} (n : nat) (l : list A) (x : A) : In x (skipn n l) -> In x l.
Proof.
  intros H. rewrite <- (firstn_skipn n l). apply in_or_app. now right.
Qed.

Lemma windows_incl {A} (m : nat) (l : list A) (c : nat) (P : A -> Prop) :
  Forall P l -> Forall (Forall P) (windows m l c).
Proof.
  intros Hl. unfold windows. apply Forall_map, Forall_forall. intros k _.
  apply Forall_forall. intros x Hx. rewrite Forall_forall in Hl. apply Hl.
  eapply In_skipn, In_firstn, Hx.
Qed.

End WindowFacts.

(** ** The two chunkers *)
Module ChunkFacts.
Import PyFacts WindowFacts.

Lemma fold_left_collect {A B} (p : A -> bool) (f : A -> B) (l : list A) (acc : list B) :
  fold_left (fun chunks i => if p i then chunks ++ [f i] else chunks) l acc
  = acc ++ map f (filter p l).
Proof.
  revert acc. induction l as [|i l IH]; intros acc; simpl.
  - now rewrite app_nil_r.
  - rewrite IH. destruct (p i); [|reflexivity].
    now rewrite <- app_assoc.
Qed.

Lemma filter_all {A} (p : A -> bool) (l : list A) :
  Forall (fun x => p x = true) l -> filter p l = l.
Proof.
  induction 1 as [|x l Hx _ IH]; simpl; [reflexivity|].
  now rewrite Hx, IH.
Qed.

Lemma to_nat_index (k : nat) (m : Z) :
  0 < m -> Z.to_nat (Z.of_nat k * m) = (k * Z.to_nat m)%nat.
Proof. intros Hm. rewrite Z2Nat.inj_mul, Nat2Z.id by lia. reflexivity. Qed.

(** The slice taken at the [k]-th index is the [k]-th window. *)
Lemma slice_window {A} (l : list A) (k : nat) (m : Z) :
  0 < m ->
  slice l (Z.of_nat k * m) (Z.of_nat k * m + m)
  = firstn (Z.to_nat m) (skipn (k * Z.to_nat m) l).
Proof.
  intros Hm. rewrite slice_forward by nia. now rewrite to_nat_index.
Qed.

Lemma length_window {A} (l : list A) (k : nat) (m : Z) :
  0 < m ->
  Z.of_nat (List.length (firstn (Z.to_nat m) (skipn (k * Z.to_nat m) l)))
  = Z.min m (Z.max 0 (len l - Z.of_nat k * m)).
Proof.
  intros Hm. rewrite length_firstn, length_skipn. unfold len.
  rewrite Nat2Z.inj_min, Nat2Z.inj_sub_max, Nat2Z.inj_mul, Z2Nat.id by lia.
  reflexivity.
Qed.

(** Every index of the range starts inside the list. *)
Lemma index_inside {A} (l : list A) (k : nat) (m : Z) :
  0 < m -> (k < range_length 0 (len l) m)%nat -> Z.of_nat k * m < len l.
Proof.
  intros Hm Hk.
  destruct (range_length_covers (len l) m Hm ltac:(unfold len; lia)) as (_ & Hlast & Hzero).
  cbv zeta in *.
  assert (Hn : 0 <= len l) by (unfold len; lia).
  destruct (Z.eq_dec (len l) 0) as [E|E]; [specialize (Hzero E); lia|].
  destruct Hlast as [Hlast _]; [lia|]. nia.
Qed.

Lemma window_nonempty {A} (l : list A) (k : nat) (m : Z) :
  0 < m -> (k < range_length 0 (len l) m)%nat ->
  firstn (Z.to_nat m) (skipn (k * Z.to_nat m) l) <> [].
Proof.
  intros Hm Hk E. apply (f_equal (fun x => Z.of_nat (List.length x))) in E.
  rewrite length_window in E by assumption.
  pose proof (index_inside l k m Hm Hk). simpl in E. lia.
Qed.

Lemma indices_windows {A} (l : list A) (m : Z) (c : nat) :
  0 < m ->
  map (fun i => slice l i (i + m)) (map (fun k => Z.of_nat k * m) (seq 0 c))
  = windows (Z.to_nat m) l c.
Proof.
  intros Hm. unfold windows. rewrite map_map. apply map_ext. intros k.
  now apply slice_window.
Qed.

(** With a positive [max_words] the loop of the UI drops nothing: its
    result is the list of windows, each joined by single spaces. *)
Lemma app_chunk_text_windows (text : str) (m : Z) :
  0 < m ->
  App.chunk_text text m
  = inr (map (join SPACE)
           (windows (Z.to_nat m) (split text) (range_length 0 (len (split text)) m))).
Proof.
  intros Hm. unfold App.chunk_text. rewrite range_step_positive by assumption.
  f_equal.
  rewrite (fold_left_collect
             (fun i => truthy (strip (join SPACE (slice (split text) i (i + m)))))
             (fun i => join SPACE (slice (split text) i (i + m)))).
  rewrite app_nil_l, filter_all.
  - rewrite <- (indices_windows (split text) m) by assumption.
    now rewrite (map_map (fun i => slice (split text) i (i + m))).
  - apply Forall_map, Forall_forall. intros k Hk. apply in_seq in Hk.
    rewrite slice_window by assumption. apply strip_join.
    + rewrite Forall_forall. intros w Hw.
      pose proof (split_words text) as Hall. rewrite Forall_forall in Hall.
      eapply Hall, In_skipn, In_firstn, Hw.
    + apply window_nonempty; [assumption | lia].
Qed.

Lemma cli_chunk_text_windows (text : str) (m : Z) :
  0 < m ->
  Cli.chunk_text text m
  = inr (map (join SPACE)
           (windows (Z.to_nat m) (split text) (range_length 0 (len (split text)) m))).
Proof.
  intros Hm. unfold Cli.chunk_text. rewrite range_step_positive by assumption.
  f_equal. rewrite filter_all.
  - rewrite <- (indices_windows (split text) m) by assumption.
    now rewrite (map_map (fun i => slice (split text) i (i + m))).
  - apply Forall_map, Forall_forall. intros k Hk. apply in_seq in Hk.
    rewrite slice_window by assumption. apply truthy_true.
    apply window_nonempty; [assumption | lia].
Qed.

Lemma chunk_text_zero (text : str) :
  App.chunk_text text 0 = inl ValueError /\ Cli.chunk_text text 0 = inl ValueError.
Proof. split; reflexivity. Qed.

Lemma chunk_text_negative (text : str) (m : Z) :
  m < 0 -> App.chunk_text text m = inr [] /\ Cli.chunk_text text m = inr [].
Proof.
  intros Hm. unfold App.chunk_text, Cli.chunk_text.
  rewrite range_step_negative by (unfold len; lia). split; reflexivity.
Qed.

(** The windows over the words of a text cover them all. *)
Lemma windows_cover (text : str) (m : Z) :
  0 < m ->
  concat (windows (Z.to_nat m) (split text) (range_length 0 (len (split text)) m))
  = split text.
Proof.
  intros Hm. rewrite concat_windows. apply firstn_all2.
  destruct (range_length_covers (len (split text)) m Hm ltac:(unfold len; lia)) as (Hc & _).
  cbv zeta in Hc. unfold len in *. nia.
Qed.

Lemma word_sequence_joined (ws : list (list str)) :
  Forall (Forall is_word) ws -> word_sequence (map (join SPACE) ws) = concat ws.
Proof.
  unfold word_sequence. induction 1 as [|w ws Hw _ IH]; [reflexivity|].
  simpl. now rewrite split_join, IH.
Qed.

Lemma joined_windows_lossless (text : str) (m : Z) :
  0 < m ->
  word_sequence
    (map (join SPACE)
       (windows (Z.to_nat m) (split text) (range_length 0 (len (split text)) m)))
  = split text.
Proof.
  intros Hm. rewrite word_sequence_joined.
  - now apply windows_cover.
  - apply windows_incl, split_words.
Qed.

Lemma joined_windows_well_sized (text : str) (m : Z) :
  0 < m ->
  well_sized m
    (map (join SPACE)
       (windows (Z.to_nat m) (split text) (range_length 0 (len (split text)) m))).
Proof.
  intros Hm k chunk Hk. rewrite length_map, length_windows.
  rewrite nth_error_map in Hk.
  destruct (nth_error _ k) as [win|] eqn:Hwin; [|discriminate].
  injection Hk as <-. apply nth_error_windows in Hwin. destruct Hwin as [Hlt ->].
  set (win := firstn (Z.to_nat m) (skipn (k * Z.to_nat m) (split text))).
  assert (Hwords : Forall is_word win).
  { rewrite Forall_forall. intros w Hw.
    pose proof (split_words text) as Hall. rewrite Forall_forall in Hall.
    eapply Hall, In_skipn, In_firstn, Hw. }
  assert (Hne : win <> []) by now apply window_nonempty.
  assert (Hcount : word_count (join SPACE win)
                   = Z.min m (Z.max 0 (len (split text) - Z.of_nat k * m))).
  { unfold word_count. rewrite split_join by assumption.
    now apply length_window. }
  pose proof (index_inside (split text) k m Hm Hlt) as Hin.
  split; [|split].
  - intros E. pose proof (strip_join win Hwords Hne) as Hs.
    rewrite E in Hs. discriminate.
  - intros Hnext. rewrite Hcount.
    pose proof (index_inside (split text) (S k) m Hm Hnext). lia.
  - intros _. rewrite Hcount. lia.
Qed.

End ChunkFacts.

(** ** Runs of the monad *)
Module RunFacts.
Section WithTransformers.
Context {T : Transformers}.

Lemma bind_inr {A B} (m : M A) (k : A -> M B) (w w1 : world) (a : A) :
  m w = (inr a, w1) -> bind m k w = k a w1.
Proof. intros H. unfold bind. now rewrite H. Qed.

Lemma summarize_run (s : summarizer) (text : str) (ml mn : Z) (w : world) :
  exists out st,
    run_model s (lib w) text ml mn = (out, st)
    /\ summarize s text ml mn w
       = (match out with
          | inl e => inl (CapabilityFailure e)
          | inr t => inr t
          end,
          World st (cache w) (requested w) (calls w ++ [Call s text ml mn out])).
Proof.
  unfold summarize. destruct (run_model s (lib w) text ml mn) as [out st].
  exists out, st. split; [reflexivity|]. now destruct out.
Qed.

Lemma pipeline_run (model : str) (w : world) :
  exists r st,
    load_model model (lib w) = (r, st)
    /\ pipeline model w
       = (match r with
          | Some e => inl (ModelLoadFailure e)
          | None => inr model
          end,
          World st (cache w) (requested w ++ [model]) (calls w)).
Proof.
  unfold pipeline. destruct (load_model model (lib w)) as [r st].
  exists r, st. split; [reflexivity|]. now destruct r.
Qed.

(** A call of [get_summarizer]: a cache hit changes nothing; a miss
    builds the pipeline and keeps it when it could be built. *)
Lemma get_summarizer_run (key : cache_key) (w : world) :
  (App.cached key w = true /\ App.get_summarizer key w = (inr (model_of key), w))
  \/ (App.cached key w = false
      /\ exists r st,
           load_model (model_of key) (lib w) = (r, st)
           /\ App.get_summarizer key w
              = match r with
                | Some e =>
                    (inl (ModelLoadFailure e),
                     World st (cache w) (requested w ++ [model_of key]) (calls w))
                | None =>
                    (inr (model_of key),
                     World st (key :: cache w) (requested w ++ [model_of key])
                       (calls w))
                end).
Proof.
  unfold App.get_summarizer. fold (model_of key).
  destruct (App.cached key w); [now left | right]. split; [reflexivity|].
  destruct (pipeline_run (model_of key) w) as (r & st & Hl & ->).
  exists r, st. split; [assumption|]. now destruct r.
Qed.

(** *** Discipline of the calls *)

Lemma disciplined_nil {A} (r : exn + A) :
  (forall e, r <> inl (CapabilityFailure e)) -> disciplined [] r.
Proof. intros H. left. split; [constructor | assumption]. Qed.

Lemma keeps_discipline_ret {A} (a : A) : keeps_discipline (ret a).
Proof.
  intros w. exists []. simpl. rewrite app_nil_r. split; [reflexivity|].
  apply disciplined_nil. discriminate.
Qed.

Lemma keeps_discipline_lift {A} (r : builtin_exn + A) : keeps_discipline (lift r).
Proof.
  intros w. exists []. rewrite app_nil_r.
  destruct r; simpl; (split; [reflexivity | apply disciplined_nil; discriminate]).
Qed.

Lemma keeps_discipline_pipeline (model : str) : keeps_discipline (pipeline model).
Proof.
  intros w. exists []. rewrite app_nil_r.
  destruct (pipeline_run model w) as (r & st & _ & ->).
  destruct r; simpl; (split; [reflexivity | apply disciplined_nil; discriminate]).
Qed.

Lemma keeps_discipline_get_summarizer (key : cache_key) :
  keeps_discipline (App.get_summarizer key).
Proof.
  intros w. exists []. rewrite app_nil_r.
  destruct (get_summarizer_run key w) as [[_ ->] | (_ & r & st & _ & ->)].
  - split; [reflexivity | apply disciplined_nil; discriminate].
  - destruct r; simpl; (split; [reflexivity | apply disciplined_nil; discriminate]).
Qed.

Lemma keeps_discipline_summarize (s : summarizer) (text : str) (ml mn : Z) :
  keeps_discipline (summarize s text ml mn).
Proof.
  intros w. destruct (summarize_run s text ml mn w) as (out & st & _ & ->).
  exists [Call s text ml mn out]. simpl. split; [reflexivity|].
  destruct out as [e|t].
  - right. exists [], (Call s text ml mn (inl e)), e. repeat split. constructor.
  - left. split; [|discriminate].
    constructor; [now exists t | constructor].
Qed.

Lemma disciplined_raise {A B} (cs : list call) (e : exn) :
  disciplined cs (inl e : exn + A) -> disciplined cs (inl e : exn + B).
Proof.
  intros [[Hall Hr] | (pre & c & e' & -> & Hpre & Hout & Hr)].
  - left. split; [assumption|]. intros e' E. apply (Hr e'). congruence.
  - right. exists pre, c, e'. repeat split; try assumption. congruence.
Qed.

Lemma keeps_discipline_bind {A B} (m : M A) (k : A -> M B) :
  keeps_discipline m -> (forall a, keeps_discipline (k a)) ->
  keeps_discipline (bind m k).
Proof.
  intros Hm Hk w. destruct (Hm w) as (cs1 & Hc1 & Hd1). unfold bind.
  destruct (m w) as [[e|a] w1]; simpl in *.
  - exists cs1. split; [assumption | now apply (disciplined_raise (A := A))].
  - destruct (Hk a w1) as (cs2 & Hc2 & Hd2).
    exists (cs1 ++ cs2). split; [now rewrite Hc2, Hc1, app_assoc|].
    destruct Hd1 as [[Hall1 _] | (pre & c & e & _ & _ & _ & Habs)]; [|discriminate].
    destruct Hd2 as [[Hall2 Hr] | (pre & c & e & -> & Hpre & Hout & Hr)].
    + left. split; [|assumption]. apply Forall_app. now split.
    + right. exists (cs1 ++ pre), c, e. rewrite app_assoc.
      repeat split; try assumption. apply Forall_app. now split.
Qed.

Lemma keeps_discipline_loop (bounds : str -> Z * Z) (s : summarizer)
    (chunks summaries : list str) :
  keeps_discipline (loop_with bounds s chunks summaries).
Proof.
  revert summaries. induction chunks as [|ch rest IH]; intros summaries; simpl.
  - apply keeps_discipline_ret.
  - apply keeps_discipline_bind; [apply keeps_discipline_summarize|].
    intros out. apply IH.
Qed.

Lemma succeeded_not_raised (c : call) (e : lib_error) :
  succeeded c -> call_outcome c <> inl e.
Proof. intros [t Ht]. congruence. Qed.

(** A disciplined run fails fast. *)
Lemma discipline_fails_fast {A} (m : M A) : keeps_discipline m -> fails_fast m.
Proof.
  intros H w r w' pre c post e Hrun Hcalls Hout.
  destruct (H w) as (cs & Hcs & Hd). rewrite Hrun in Hcs, Hd. simpl in Hcs, Hd.
  rewrite Hcalls in Hcs. apply app_inv_head in Hcs. subst cs.
  destruct Hd as [[Hall _] | (pre' & c' & e' & Heq & Hpre & Hout' & ->)].
  - apply Forall_app in Hall. destruct Hall as [_ Hall].
    inversion Hall as [|? ? Hc _]; subst.
    now apply (succeeded_not_raised c e) in Hc.
  - destruct post as [|p post _] using rev_ind.
    + apply app_inj_tail in Heq. destruct Heq as [<- <-].
      repeat split; [assumption | congruence].
    + exfalso. rewrite app_comm_cons, app_assoc in Heq.
      apply app_inj_tail in Heq. destruct Heq as [<- _].
      apply Forall_app in Hpre. destruct Hpre as [_ Hpre].
      inversion Hpre as [|? ? Hc _]; subst.
      now apply (succeeded_not_raised c e) in Hc.
Qed.

(** *** The model behind the calls *)

Lemma uses_only_quiet {A} (model : str) (m : M A) :
  (forall w, snd (m w) = w) -> uses_only model m.
Proof.
  intros H w. exists [], []. rewrite H, !app_nil_r. repeat split; constructor.
Qed.

Lemma uses_only_ret {A} (model : str) (a : A) : uses_only model (ret a).
Proof. now apply uses_only_quiet. Qed.

Lemma uses_only_lift {A} (model : str) (r : builtin_exn + A) :
  uses_only model (lift r).
Proof. apply uses_only_quiet. now destruct r. Qed.

Lemma uses_only_pipeline (model : str) : uses_only model (pipeline model).
Proof.
  intros w. exists [model], []. rewrite app_nil_r.
  destruct (pipeline_run model w) as (r & st & _ & ->).
  simpl; repeat split; repeat constructor.
Qed.

Lemma uses_only_get_summarizer (key : cache_key) :
  uses_only (model_of key) (App.get_summarizer key).
Proof.
  intros w.
  destruct (get_summarizer_run key w) as [[_ ->] | (_ & r & st & _ & ->)].
  - exists [], []. rewrite !app_nil_r. repeat split; constructor.
  - exists [model_of key], []. rewrite app_nil_r.
    destruct r; simpl; repeat split; repeat constructor.
Qed.

(** The summarizer that [get_summarizer] returns is the one of the model
    of its argument list. *)
Lemma get_summarizer_is_summarizer (key : cache_key) {A} (k : summarizer -> M A)
    (w : world) :
  bind (App.get_summarizer key) k w
  = bind (App.get_summarizer key) (fun _ => k (model_of key)) w.
Proof.
  unfold bind.
  destruct (get_summarizer_run key w) as [[_ ->] | (_ & r & st & _ & ->)];
    [reflexivity | now destruct r].
Qed.

Lemma uses_only_summarize (model text : str) (ml mn : Z) :
  uses_only model (summarize model text ml mn).
Proof.
  intros w. destruct (summarize_run model text ml mn w) as (out & st & _ & ->).
  exists [], [Call model text ml mn out]. simpl. rewrite app_nil_r.
  repeat split; repeat constructor.
Qed.

Lemma uses_only_bind {A B} (model : str) (m : M A) (k : A -> M B) :
  uses_only model m -> (forall a, uses_only model (k a)) ->
  uses_only model (bind m k).
Proof.
  intros Hm Hk w. destruct (Hm w) as (rs1 & cs1 & Hr1 & Hc1 & Hrs1 & Hcs1).
  unfold bind. destruct (m w) as [[e|a] w1]; simpl in *.
  - now exists rs1, cs1.
  - destruct (Hk a w1) as (rs2 & cs2 & Hr2 & Hc2 & Hrs2 & Hcs2).
    exists (rs1 ++ rs2), (cs1 ++ cs2).
    rewrite Hr2, Hc2, Hr1, Hc1, !app_assoc.
    repeat split; apply Forall_app; now split.
Qed.

Lemma uses_only_loop (bounds : str -> Z * Z) (s : summarizer)
    (chunks summaries : list str) :
  uses_only s (loop_with bounds s chunks summaries).
Proof.
  revert summaries. induction chunks as [|ch rest IH]; intros summaries; simpl.
  - apply uses_only_ret.
  - apply uses_only_bind; [apply uses_only_summarize|].
    intros out. apply IH.
Qed.

(** *** The two loops *)

Lemma app_loop_with (s : summarizer) (max_length min_length : Z)
    (chunks summaries : list str) (w : world) :
  App.summarize_loop s max_length min_length chunks summaries w
  = loop_with (app_bounds max_length min_length) s chunks summaries w.
Proof.
  revert summaries w. induction chunks as [|ch rest IH]; intros summaries w;
    [reflexivity|].
  simpl. unfold bind.
  destruct (summarize s ch _ _ w) as [[e|out] w1]; [reflexivity | apply IH].
Qed.

Lemma cli_loop_with (s : summarizer) (chunks summaries : list str) (w : world) :
  Cli.summarize_loop s chunks summaries w
  = loop_with cli_bounds s chunks summaries w.
Proof.
  revert summaries w. induction chunks as [|ch rest IH]; intros summaries w;
    [reflexivity|].
  simpl. unfold bind.
  destruct (summarize s ch _ _ w) as [[e|out] w1]; [reflexivity | apply IH].
Qed.

Lemma keeps_discipline_ext {A} (m m' : M A) :
  (forall w, m w = m' w) -> keeps_discipline m' -> keeps_discipline m.
Proof. intros E H w. rewrite E. apply H. Qed.

Lemma uses_only_ext {A} (model : str) (m m' : M A) :
  (forall w, m w = m' w) -> uses_only model m' -> uses_only model m.
Proof. intros E H w. rewrite E. apply H. Qed.

(** A loop that returns has summarized every chunk: it returns one
    summary more per chunk. *)
Lemma loop_with_returns (bounds : str -> Z * Z) (s : summarizer)
    (chunks summaries ss : list str) (w w' : world) :
  loop_with bounds s chunks summaries w = (inr ss, w') ->
  exists outs, ss = summaries ++ outs /\ List.length outs = List.length chunks.
Proof.
  revert summaries w. induction chunks as [|ch rest IH]; intros summaries w H.
  - injection H as <- <-. exists []. now rewrite app_nil_r.
  - simpl in H. unfold bind in H.
    destruct (summarize s ch _ _ w) as [[e|out] w1]; [discriminate|].
    apply IH in H. destruct H as (outs & -> & Hlen).
    exists (out :: outs). rewrite <- app_assoc. simpl. now rewrite Hlen.
Qed.

End WithTransformers.
End RunFacts.

(** ** The two pipelines *)
Module PipelineFacts.
Import PyFacts WindowFacts ChunkFacts RunFacts.

Lemma blank_or_not (s : str) : Forall blank s \/ Exists nonspace s.
Proof.
  induction s as [|c s [IH|IH]].
  - left. constructor.
  - unfold blank, nonspace. destruct (Py_UNICODE_ISSPACE c) eqn:Hc.
    + left. now constructor.
    + right. now constructor.
  - right. now apply Exists_cons_tl.
Qed.

Lemma lstrip_blank (s : str) : Forall blank s -> lstrip s = [].
Proof. induction 1 as [|c s Hc _ IH]; simpl; [reflexivity | now rewrite Hc]. Qed.

Lemma strip_blank (s : str) : Forall blank s -> strip s = [].
Proof. intros H. unfold strip, rstrip. now rewrite (lstrip_blank s). Qed.

Lemma split_blank (s : str) : Forall blank s -> split s = [].
Proof.
  unfold split. induction 1 as [|c s Hc _ IH]; simpl; [reflexivity | now rewrite Hc].
Qed.

(** A text with a word in it passes the guard on blank texts. *)
Lemma words_pass_guard (text : str) :
  split text <> [] -> truthy text = true /\ truthy (strip text) = true.
Proof.
  intros Hw. destruct (blank_or_not text) as [Hb|He].
  - now apply split_blank in Hb.
  - split; [|now apply strip_keeps].
    destruct text; [inversion He | reflexivity].
Qed.

Lemma range_of_nothing (m : Z) : range 0 0 m = inl ValueError \/ range 0 0 m = inr [].
Proof.
  unfold range, range_length. destruct (m =? 0); [now left | right].
  now destruct (0 <? m).
Qed.

Lemma app_chunks_need_words (text : str) (m : Z) (chunks : list str) :
  App.chunk_text text m = inr chunks -> chunks <> [] -> split text <> [].
Proof.
  intros H Hne E. unfold App.chunk_text in H. rewrite E in H.
  change (len (@nil str)) with 0 in H.
  destruct (range_of_nothing m) as [R|R]; rewrite R in H; [discriminate|].
  injection H as <-. now apply Hne.
Qed.

(** The two chunkers agree on every input. *)
Lemma chunk_text_agree (text : str) (m : Z) :
  App.chunk_text text m = Cli.chunk_text text m.
Proof.
  destruct (Z.lt_trichotomy m 0) as [Hm | [-> | Hm]].
  - destruct (chunk_text_negative text m Hm) as [-> ->]. reflexivity.
  - destruct (chunk_text_zero text) as [-> ->]. reflexivity.
  - now rewrite app_chunk_text_windows, cli_chunk_text_windows.
Qed.

Section WithTransformers.
Context {T : Transformers}.

Lemma pipeline_returns (model : str) (s : summarizer) (w w0 : world) :
  pipeline model w = (inr s, w0) ->
  s = model
  /\ exists st,
       load_model model (lib w) = (None, st)
       /\ w0 = World st (cache w) (requested w ++ [model]) (calls w).
Proof.
  destruct (pipeline_run model w) as (r & st & Hl & ->).
  destruct r; [discriminate|]. intros H. injection H as <- <-.
  split; [reflexivity|]. now exists st.
Qed.


(** What a call of [get_summarizer] that returns has done: it gives the
    summarizer of the model of its argument list and makes no call. *)
Lemma get_summarizer_returns (key : cache_key) (s : summarizer) (w w0 : world) :
  App.get_summarizer key w = (inr s, w0) ->
  s = model_of key /\ calls w0 = calls w
  /\ requested w0
     = requested w ++ (if App.cached key w then [] else [model_of key]).
Proof.
  destruct (get_summarizer_run key w) as [[Hc ->] | (Hc & r & st & _ & ->)];
    rewrite Hc.
  - intros H. injection H as <- <-. now rewrite app_nil_r.
  - destruct r; [discriminate|]. intros H. injection H as <- <-. now repeat split.
Qed.

Lemma get_summarizer_raises (key : cache_key) (e : exn) (w w0 : world) :
  App.get_summarizer key w = (inl e, w0) -> calls w0 = calls w.
Proof.
  destruct (get_summarizer_run key w) as [[_ ->] | (_ & r & st & _ & ->)];
    [discriminate|].
  destruct r; [|discriminate]. intros H. now injection H as <- <-.
Qed.

(** What a chunk pass of the UI that returns has done. *)
Lemma app_chunk_pass_returns (chunks ss : list str) (ml mn : Z) (w wU : world) :
  App.summarize_chunks chunks ml mn None w = (inr ss, wU) ->
  List.length ss = List.length chunks.
Proof.
  unfold App.summarize_chunks, bind. intros H.
  destruct (App.get_summarizer (Some DEFAULT_MODEL) w) as [[e|s] w0];
    [discriminate|].
  rewrite app_loop_with in H. apply loop_with_returns in H.
  now destruct H as (outs & -> & Hlen).
Qed.

Lemma len_length {A} (l : list A) : (1 <? len l) = (1 <? List.length l)%nat.
Proof.
  unfold len. destruct (Z.ltb_spec 1 (Z.of_nat (List.length l)));
    destruct (Nat.ltb_spec 1 (List.length l)); (reflexivity || lia).
Qed.

(** The UI pipeline, once the chunks are there and their pass returned. *)
Lemma app_after_chunk_pass (text : str) (n : Z) (fp : bool) (w wU : world)
    (chunks ss : list str) :
  App.chunk_text text n = inr chunks -> chunks <> [] ->
  App.summarize_chunks chunks 160 60 None w = (inr ss, wU) ->
  App.summarize_pdf_text text n fp w
  = (if fp && (1 <? len ss)
     then s <- App.get_summarizer None ;;
          final <- summarize s (join SPACE ss) 220 90 ;;
          ret (final, ss)
     else final <- lift (index ss 0) ;; ret (final, ss)) wU.
Proof.
  intros Hc Hne Hpass. unfold App.summarize_pdf_text.
  destruct (words_pass_guard text (app_chunks_need_words _ _ _ Hc Hne)) as [-> ->].
  cbn [negb orb]. rewrite Hc.
  erewrite bind_inr by reflexivity.
  destruct (Z.eqb_spec (len chunks) 0) as [E|_].
  { destruct chunks; [contradiction | unfold len in E; simpl in E; lia]. }
  erewrite bind_inr by exact Hpass. reflexivity.
Qed.

(** The CLI, once the chunks are there, the pipeline is built and the
    loop over the chunks returned. *)
Lemma cli_after_chunk_pass (text model : str) (n : Z) (fp : bool)
    (w w0 wC : world) (s : summarizer) (chunks ss : list str) :
  Cli.chunk_text text n = inr chunks -> chunks <> [] ->
  pipeline model w = (inr s, w0) ->
  Cli.summarize_loop s chunks [] w0 = (inr ss, wC) ->
  Cli.main text model n fp w
  = (if fp && (1 <? len ss)
     then final <- summarize s (join SPACE ss) 220 90 ;; ret (Some final)
     else ret (Some (join SPACE ss))) wC.
Proof.
  intros Hc Hne Hp Hloop. unfold Cli.main.
  rewrite <- chunk_text_agree in Hc.
  destruct (words_pass_guard text (app_chunks_need_words _ _ _ Hc Hne)) as [-> _].
  cbn [negb]. rewrite <- chunk_text_agree, Hc.
  erewrite bind_inr by reflexivity.
  erewrite bind_inr by exact Hp.
  erewrite bind_inr by exact Hloop. reflexivity.
Qed.

Lemma cli_chunk_pass_returns (s : summarizer) (chunks ss : list str) (w0 wC : world) :
  Cli.summarize_loop s chunks [] w0 = (inr ss, wC) ->
  List.length ss = List.length chunks.
Proof.
  rewrite cli_loop_with. intros H. apply loop_with_returns in H.
  now destruct H as (outs & -> & Hlen).
Qed.

(** One more call of a summarizer, spelled out. *)
Lemma final_call (s : summarizer) (joined : str) (w : world) {A} (k : str -> A) :
  (final <- summarize s joined 220 90 ;; ret (k final)) w
  = let (out, st) := run_model s (lib w) joined 220 90 in
    (match out with
     | inl e => inl (CapabilityFailure e)
     | inr final => inr (k final)
     end,
     World st (cache w) (requested w) (calls w ++ [Call s joined 220 90 out])).
Proof.
  unfold bind, summarize.
  destruct (run_model s (lib w) joined 220 90) as [[e|t] st]; reflexivity.
Qed.

(** *** Discipline and model of the whole runs *)

Lemma app_summarize_chunks_discipline (chunks : list str) (ml mn : Z) (kw : option str) :
  keeps_discipline (App.summarize_chunks chunks ml mn kw).
Proof.
  apply keeps_discipline_bind; [apply keeps_discipline_get_summarizer|]. intros s.
  eapply keeps_discipline_ext; [apply app_loop_with | apply keeps_discipline_loop].
Qed.

Lemma app_pipeline_discipline (text : str) (n : Z) (fp : bool) :
  keeps_discipline (App.summarize_pdf_text text n fp).
Proof.
  unfold App.summarize_pdf_text.
  destruct (_ || _); [apply keeps_discipline_ret|].
  apply keeps_discipline_bind; [apply keeps_discipline_lift|]. intros chunks.
  destruct (len chunks =? 0); [apply keeps_discipline_ret|].
  apply keeps_discipline_bind; [apply app_summarize_chunks_discipline|]. intros ss.
  destruct (fp && _).
  - apply keeps_discipline_bind; [apply keeps_discipline_get_summarizer|]. intros s.
    apply keeps_discipline_bind; [apply keeps_discipline_summarize|]. intros f.
    apply keeps_discipline_ret.
  - apply keeps_discipline_bind; [apply keeps_discipline_lift|]. intros f.
    apply keeps_discipline_ret.
Qed.

Lemma cli_main_discipline (text model : str) (n : Z) (fp : bool) :
  keeps_discipline (Cli.main text model n fp).
Proof.
  unfold Cli.main. destruct (negb _); [apply keeps_discipline_ret|].
  apply keeps_discipline_bind; [apply keeps_discipline_lift|]. intros chunks.
  apply keeps_discipline_bind; [apply keeps_discipline_pipeline|]. intros s.
  apply keeps_discipline_bind.
  { eapply keeps_discipline_ext; [apply cli_loop_with | apply keeps_discipline_loop]. }
  intros ss. destruct (fp && _); [|apply keeps_discipline_ret].
  apply keeps_discipline_bind; [apply keeps_discipline_summarize|]. intros f.
  apply keeps_discipline_ret.
Qed.

Lemma pipeline_is_summarizer (model : str) {A} (k : summarizer -> M A) (w : world) :
  bind (pipeline model) k w = bind (pipeline model) (fun _ => k model) w.
Proof.
  unfold bind. destruct (pipeline_run model w) as (r & st & _ & ->).
  now destruct r.
Qed.

Lemma app_summarize_chunks_model (chunks : list str) (ml mn : Z) :
  uses_only DEFAULT_MODEL (App.summarize_chunks chunks ml mn None).
Proof.
  unfold App.summarize_chunks.
  eapply uses_only_ext; [apply get_summarizer_is_summarizer|].
  apply uses_only_bind; [apply (uses_only_get_summarizer (Some DEFAULT_MODEL))|].
  intros _.
  eapply uses_only_ext; [apply app_loop_with | apply uses_only_loop].
Qed.

End WithTransformers.
End PipelineFacts.

(** ** The length bounds of the requests *)
Module LengthFacts.
Import RunFacts.

Lemma guardrail_bounds (max_length min_length : Z) (ch : str) :
  let ml := App.chunk_max_length max_length ch in
  let mn := App.chunk_min_length min_length ml in
  16 <= mn < ml /\ 32 <= ml /\ ml <= Z.max 32 max_length
  /\ mn = clamp min_length 16 (ml - 16).
Proof.
  cbv zeta. unfold App.chunk_max_length, App.chunk_min_length, clamp.
  set (half := len (split ch) / 2).
  destruct (Z.ltb_spec min_length 16);
    [|destruct (Z.ltb_spec (Z.max 32 (Z.min max_length (Z.max 64 half)) - 16) min_length)];
    lia.
Qed.

Lemma guardrail_clamp (max_length : Z) (ch : str) :
  32 <= max_length ->
  App.chunk_max_length max_length ch
  = clamp (Z.max 64 (word_count ch / 2)) 32 max_length.
Proof.
  intros H. unfold App.chunk_max_length, clamp, word_count.
  set (half := len (split ch) / 2).
  destruct (Z.ltb_spec (Z.max 64 half) 32); [lia|].
  destruct (Z.ltb_spec max_length (Z.max 64 half)); lia.
Qed.

Section WithTransformers.
Context {T : Transformers}.

(** Every call of the loop is for one of the chunks, with the bounds of
    the policy for that chunk. *)
Lemma loop_with_requests (bounds : str -> Z * Z) (s : summarizer)
    (chunks summaries : list str) (w : world) :
  exists cs,
    calls (snd (loop_with bounds s chunks summaries w)) = calls w ++ cs
    /\ Forall (fun c => In (call_text c) chunks
                        /\ (call_max_length c, call_min_length c)
                           = bounds (call_text c)) cs.
Proof.
  revert summaries w. induction chunks as [|ch rest IH]; intros summaries w.
  - exists []. simpl. now rewrite app_nil_r.
  - simpl loop_with. unfold bind.
    destruct (summarize_run s ch (fst (bounds ch)) (snd (bounds ch)) w)
      as (out & st & _ & ->).
    set (c := Call s ch (fst (bounds ch)) (snd (bounds ch)) out).
    assert (Hc : In (call_text c) (ch :: rest)
                 /\ (call_max_length c, call_min_length c) = bounds (call_text c)).
    { split; [now left | simpl; now destruct (bounds ch)]. }
    destruct out as [e|t].
    + exists [c]. split; [reflexivity | now constructor].
    + destruct (IH (summaries ++ [t])
                  (World st (cache w) (requested w) (calls w ++ [c])))
        as (cs & -> & Hall).
      exists (c :: cs). simpl calls. rewrite <- app_assoc. split; [reflexivity|].
      constructor; [assumption|].
      eapply Forall_impl; [|exact Hall]. intros c' [Hin Hb].
      split; [now right | assumption].
Qed.

End WithTransformers.
End LengthFacts.

(** ** Properties of the chunker *)
Section Chunker.
Import PyFacts WindowFacts ChunkFacts PipelineFacts.

(** C1 -- Lossless partition: for every text and every positive
    [max_words], both chunkers return a list of chunks, and the word
    sequences of the chunks, laid end to end in order, are exactly the
    word sequence of the text. *)
Theorem chunk_text_lossless (text : str) (max_words : Z) :
  0 < max_words ->
  exists chunks,
    App.chunk_text text max_words = inr chunks
    /\ Cli.chunk_text text max_words = inr chunks
    /\ word_sequence chunks = split text.
Proof.
  intros Hm. eexists. split; [now apply app_chunk_text_windows|].
  split; [now apply cli_chunk_text_windows|].
  now apply joined_windows_lossless.
Qed.

Lemma chunk_text_lossless_witness :
  exists chunks,
    App.chunk_text (of_string "to be  or not to be") 4 = inr chunks
    /\ Cli.chunk_text (of_string "to be  or not to be") 4 = inr chunks
    /\ word_sequence chunks = split (of_string "to be  or not to be").
Proof. apply (chunk_text_lossless (of_string "to be  or not to be") 4). lia. Defined.

(** C2 -- Chunk size bound: for every text and every positive
    [max_words], every chunk but the last has exactly [max_words] words,
    the last has between one and [max_words] words, and no chunk is the
    empty string. *)
Theorem chunk_text_well_sized (text : str) (max_words : Z) :
  0 < max_words ->
  exists chunks,
    App.chunk_text text max_words = inr chunks
    /\ Cli.chunk_text text max_words = inr chunks
    /\ well_sized max_words chunks.
Proof.
  intros Hm. eexists. split; [now apply app_chunk_text_windows|].
  split; [now apply cli_chunk_text_windows|].
  now apply joined_windows_well_sized.
Qed.

Lemma chunk_text_well_sized_witness :
  exists chunks,
    App.chunk_text (of_string "to be  or not to be") 4 = inr chunks
    /\ Cli.chunk_text (of_string "to be  or not to be") 4 = inr chunks
    /\ well_sized 4 chunks.
Proof. apply (chunk_text_well_sized (of_string "to be  or not to be") 4). lia. Defined.

(** C8 -- Totality: for every text and every positive [max_words],
    neither chunker raises; each returns a list of strings. *)
Theorem chunk_text_total (text : str) (max_words : Z) :
  0 < max_words ->
  (exists chunks, App.chunk_text text max_words = inr chunks)
  /\ (exists chunks, Cli.chunk_text text max_words = inr chunks).
Proof.
  intros Hm. split; eexists;
    [now apply app_chunk_text_windows | now apply cli_chunk_text_windows].
Qed.

Lemma chunk_text_total_witness :
  (exists chunks, App.chunk_text [] 500 = inr chunks)
  /\ (exists chunks, Cli.chunk_text [] 500 = inr chunks).
Proof. apply (chunk_text_total [] 500). lia. Defined.

(** C9 -- The chunker of the UI and the chunker of the CLI are the same
    function: on every text and every [max_words], positive or not, they
    return the same list of chunks or raise the same exception. *)
Theorem chunk_text_ui_cli_equal (text : str) (max_words : Z) :
  App.chunk_text text max_words = Cli.chunk_text text max_words.
Proof.
  destruct (Z.lt_trichotomy max_words 0) as [Hm | [-> | Hm]].
  - destruct (chunk_text_negative text max_words Hm) as [-> ->]. reflexivity.
  - reflexivity.
  - now rewrite app_chunk_text_windows, cli_chunk_text_windows.
Qed.

End Chunker.

(** ** Properties of the hierarchical summarizer *)
Section Summarizer.
Import PyFacts WindowFacts ChunkFacts RunFacts PipelineFacts LengthFacts.
Context {T : Transformers}.

(** C3, as amended -- When the final pass is not taken, that is when
    [final_pass] is false or there is a single chunk: once its pass over
    the chunks returned, the UI returns the first chunk summary as final
    summary, which for a single chunk is the summary of that chunk; once
    its own pass over the chunks returned, the CLI prints the
    single-space join of all the chunk summaries, which for a single chunk
    is the summary of that chunk as well. *)
Theorem final_summary_without_final_pass :
  (forall (text : str) (n : Z) (fp : bool) (chunks : list str)
          (w wU : world) (ssU : list str),
      App.chunk_text text n = inr chunks -> chunks <> [] ->
      fp = false \/ List.length chunks = 1%nat ->
      App.summarize_chunks chunks 160 60 None w = (inr ssU, wU) ->
      exists first rest,
        ssU = first :: rest
        /\ (List.length chunks = 1%nat -> rest = [])
        /\ App.summarize_pdf_text text n fp w = (inr (first, ssU), wU))
  /\ (forall (text model : str) (n : Z) (fp : bool) (chunks : list str)
             (w w0 wC : world) (s : summarizer) (ssC : list str),
         Cli.chunk_text text n = inr chunks -> chunks <> [] ->
         fp = false \/ List.length chunks = 1%nat ->
         pipeline model w = (inr s, w0) ->
         Cli.summarize_loop s chunks [] w0 = (inr ssC, wC) ->
         Cli.main text model n fp w = (inr (Some (join SPACE ssC)), wC)
         /\ (List.length chunks = 1%nat ->
             exists only, ssC = [only] /\ join SPACE ssC = only)).
Proof.
  assert (Hoff : forall (fp : bool) (chunks ss : list str),
             fp = false \/ List.length chunks = 1%nat ->
             List.length ss = List.length chunks -> fp && (1 <? len ss) = false).
  { intros fp chunks ss Hno Hlen. destruct Hno as [-> | H1]; [reflexivity|].
    rewrite len_length, Hlen, H1. apply andb_false_r. }
  split.
  - intros text n fp chunks w wU ssU Hc Hne Hno HpassU.
    pose proof (app_chunk_pass_returns _ _ _ _ _ _ HpassU) as HlenU.
    destruct ssU as [|first rest].
    { destruct chunks; [contradiction | discriminate]. }
    exists first, rest. split; [reflexivity|]. split.
    + intros H1. rewrite H1 in HlenU. now destruct rest.
    + rewrite (app_after_chunk_pass text n fp w wU chunks (first :: rest)) by assumption.
      rewrite (Hoff fp chunks) by assumption. reflexivity.
  - intros text model n fp chunks w w0 wC s ssC Hc Hne Hno Hp HpassC.
    pose proof (cli_chunk_pass_returns _ _ _ _ _ HpassC) as HlenC. split.
    + rewrite (cli_after_chunk_pass text model n fp w w0 wC s chunks ssC) by assumption.
      rewrite (Hoff fp chunks) by assumption. reflexivity.
    + intros H1. rewrite H1 in HlenC.
      destruct ssC as [|only [|? ?]]; try discriminate. now exists only.
Qed.

(** C4 -- Final pass: once the pass over the chunks returned, the final
    pass is taken exactly when [final_pass] is true and there is more than
    one chunk.  Then the run gets its summarizer (the UI from
    [get_summarizer], which may have to build it and then may raise; the
    CLI has it already) and ends with one more call of it, on the
    single-space join of all chunk summaries with [max_length] 220 and
    [min_length] 90: the final summary is what that call returns.
    Otherwise nothing follows the pass over the chunks. *)
Theorem final_pass_once_on_joined_summaries :
  (forall (text : str) (n : Z) (fp : bool) (chunks : list str)
          (w wU : world) (ssU : list str),
      App.chunk_text text n = inr chunks -> chunks <> [] ->
      App.summarize_chunks chunks 160 60 None w = (inr ssU, wU) ->
      if fp && (1 <? len chunks) then
        App.summarize_pdf_text text n fp w
        = match App.get_summarizer None wU with
          | (inl e, wF) => (inl e, wF)
          | (inr _, wF) =>
              let (out, st) :=
                run_model DEFAULT_MODEL (lib wF) (join SPACE ssU) 220 90 in
              (match out with
               | inl e => inl (CapabilityFailure e)
               | inr final => inr (final, ssU)
               end,
               World st (cache wF) (requested wF)
                 (calls wU ++ [Call DEFAULT_MODEL (join SPACE ssU) 220 90 out]))
          end
      else snd (App.summarize_pdf_text text n fp w) = wU)
  /\ (forall (text model : str) (n : Z) (fp : bool) (chunks : list str)
             (w w0 wC : world) (s : summarizer) (ssC : list str),
         Cli.chunk_text text n = inr chunks -> chunks <> [] ->
         pipeline model w = (inr s, w0) ->
         Cli.summarize_loop s chunks [] w0 = (inr ssC, wC) ->
         if fp && (1 <? len chunks) then
           Cli.main text model n fp w
           = (let (out, st) := run_model s (lib wC) (join SPACE ssC) 220 90 in
              (match out with
               | inl e => inl (CapabilityFailure e)
               | inr final => inr (Some final)
               end,
               World st (cache wC) (requested wC)
                 (calls wC ++ [Call s (join SPACE ssC) 220 90 out])))
         else snd (Cli.main text model n fp w) = wC).
Proof.
  split.
  - intros text n fp chunks w wU ssU Hc Hne HpassU.
    pose proof (app_chunk_pass_returns _ _ _ _ _ _ HpassU) as HlenU.
    assert (HtU : (1 <? len ssU) = (1 <? len chunks))
      by (now rewrite !len_length, HlenU).
    rewrite (app_after_chunk_pass text n fp w wU chunks ssU) by assumption.
    rewrite HtU. destruct (fp && (1 <? len chunks)).
    + unfold bind at 1.
      destruct (App.get_summarizer None wU) as [[e|s] wF] eqn:Hg; [reflexivity|].
      apply get_summarizer_returns in Hg. destruct Hg as (-> & Hcalls & _).
      rewrite (final_call (model_of None) (join SPACE ssU) wF (fun f => (f, ssU))).
      now rewrite Hcalls.
    + destruct ssU as [|first rest].
      { destruct chunks; [contradiction | discriminate]. }
      reflexivity.
  - intros text model n fp chunks w w0 wC s ssC Hc Hne Hp HpassC.
    pose proof (cli_chunk_pass_returns _ _ _ _ _ HpassC) as HlenC.
    assert (HtC : (1 <? len ssC) = (1 <? len chunks))
      by (now rewrite !len_length, HlenC).
    rewrite (cli_after_chunk_pass text model n fp w w0 wC s chunks ssC) by assumption.
    rewrite HtC. destruct (fp && (1 <? len chunks)); [|reflexivity].
    now rewrite (final_call s (join SPACE ssC) wC (fun f => Some f)).
Qed.

(** C5, as amended -- Adaptive bound clamp: when the configured
    [max_length] is at least 32, every request that [summarize_chunks]
    makes is for one of its chunks and, with [w] the word count of that
    chunk, satisfies [16 <= mn < ml <= max_length] and [32 <= ml], where
    [ml = clamp (max 64 (w / 2)) 32 max_length] and
    [mn = clamp min_length 16 (ml - 16)]. *)
Theorem per_chunk_request_bounds (chunks : list str) (max_length min_length : Z)
    (kwargs : option str) (w : world) :
  32 <= max_length ->
  exists cs,
    calls (snd (App.summarize_chunks chunks max_length min_length kwargs w))
    = calls w ++ cs
    /\ Forall (fun c => In (call_text c) chunks
                        /\ within_policy max_length min_length c) cs.
Proof.
  intros Hmax. unfold App.summarize_chunks, bind.
  set (model := match kwargs with Some m => m | None => DEFAULT_MODEL end).
  destruct (App.get_summarizer (Some model) w) as [[e|s] w0] eqn:Hg.
  - exists []. rewrite app_nil_r. split; [|constructor].
    now apply get_summarizer_raises in Hg.
  - apply get_summarizer_returns in Hg. destruct Hg as (-> & Hcalls & _).
    rewrite app_loop_with.
    destruct (loop_with_requests (app_bounds max_length min_length)
                (model_of (Some model)) chunks [] w0)
      as (cs & -> & Hall).
    exists cs. split; [now rewrite Hcalls|].
    eapply Forall_impl; [|exact Hall]. intros c [Hin Hb].
    split; [assumption|]. unfold within_policy, app_bounds in *. cbv zeta in *.
    injection Hb as -> ->.
    destruct (guardrail_bounds max_length min_length (call_text c))
      as (Hmn & Hml & Hcap & Hclamp).
    cbv zeta in *. repeat split; try lia; try assumption.
    now apply guardrail_clamp.
Qed.

(** C6 -- Empty-input sentinel: on a text that is empty or made of
    whitespace only, [summarize_pdf_text] returns the empty summary and
    the empty list of chunk summaries, raises nothing, and leaves the
    world as it was: no pipeline is asked for and no summarizer is
    called. *)
Theorem empty_text_sentinel (text : str) (n : Z) (fp : bool) (w : world) :
  Forall blank text ->
  App.summarize_pdf_text text n fp w = (inr ([], []), w).
Proof.
  intros Hb. unfold App.summarize_pdf_text.
  rewrite (strip_blank text Hb). simpl truthy.
  now rewrite orb_true_r.
Qed.

(** C7 -- Fail fast: in a run of [summarize_chunks], of
    [summarize_pdf_text] or of the CLI's [main], a call of the summarizer
    that raises, for a chunk or for the final pass, is the last call of
    the run: every call before it returned, no chunk is summarized after
    it, and the result of the run is the exception, not a summary with a
    partial list of chunk summaries. *)
Theorem capability_failure_aborts (text model : str) (n : Z) (fp : bool)
    (chunks : list str) (max_length min_length : Z) (kwargs : option str) :
  fails_fast (App.summarize_chunks chunks max_length min_length kwargs)
  /\ fails_fast (App.summarize_pdf_text text n fp)
  /\ fails_fast (Cli.main text model n fp).
Proof.
  split; [|split]; apply discipline_fails_fast.
  - apply app_summarize_chunks_discipline.
  - apply app_pipeline_discipline.
  - apply cli_main_discipline.
Qed.

(** C10 -- Default model only: whatever the world it starts from, a run
    of [summarize_pdf_text] asks for the pipeline of the default model
    only, and every call it makes, for a chunk or for the final pass, is
    a call of the summarizer of the default model,
    facebook/bart-large-cnn. *)
Theorem summarize_pdf_text_default_model (text : str) (n : Z) (fp : bool) :
  uses_only DEFAULT_MODEL (App.summarize_pdf_text text n fp)
  /\ DEFAULT_MODEL = of_string "facebook/bart-large-cnn".
Proof.
  split; [|reflexivity]. unfold App.summarize_pdf_text.
  destruct (_ || _); [apply uses_only_ret|].
  apply uses_only_bind; [apply uses_only_lift|]. intros chunks.
  destruct (len chunks =? 0); [apply uses_only_ret|].
  apply uses_only_bind; [apply app_summarize_chunks_model|]. intros ss.
  destruct (fp && _).
  - eapply uses_only_ext; [apply get_summarizer_is_summarizer|].
    apply uses_only_bind; [apply (uses_only_get_summarizer None)|]. intros _.
    apply uses_only_bind; [apply (uses_only_summarize (model_of None))|]. intros f.
    apply uses_only_ret.
  - apply uses_only_bind; [apply uses_only_lift|]. intros f.
    apply uses_only_ret.
Qed.

End Summarizer.

(** ** The properties on the capability [Stub.headline] *)
Section Examples.
Import Stub.

Lemma final_summary_without_final_pass_witness :
  App.summarize_pdf_text (T := headline) a_b 1 false fresh
  = (inr (a, [a; b]), ui_pass)
  /\ Cli.main (T := headline) a_b m 1 false fresh = (inr (Some a_b), cli_pass).
Proof.
  destruct (final_summary_without_final_pass (T := headline)) as [HU HC]. split.
  - destruct (HU a_b 1 false [a; b] fresh ui_pass [a; b])
      as (first & rest & E & _ & H).
    + reflexivity.
    + discriminate.
    + left. reflexivity.
    + reflexivity.
    + injection E as <- <-. exact H.
  - apply (HC a_b m 1 false [a; b] fresh cli_loaded cli_pass m [a; b]).
    + reflexivity.
    + discriminate.
    + left. reflexivity.
    + reflexivity.
    + reflexivity.
Defined.

(** With two chunks and no final pass the CLI prints both chunk
    summaries, joined, and not the first one alone. *)
Lemma cli_final_summary_is_not_first :
  Cli.chunk_text a_b 1 = inr [a; b]
  /\ pipeline (T := headline) m fresh = (inr m, cli_loaded)
  /\ Cli.summarize_loop (T := headline) m [a; b] [] cli_loaded
     = (inr [a; b], cli_pass)
  /\ Cli.main (T := headline) a_b m 1 false fresh = (inr (Some a_b), cli_pass)
  /\ a_b <> a.
Proof.
  repeat split; try reflexivity. discriminate.
Qed.

Lemma final_pass_once_on_joined_summaries_witness :
  fst (App.summarize_pdf_text (T := headline) a_b 1 true fresh)
  = inr (a, [a; b])
  /\ fst (Cli.main (T := headline) a_b m 1 true fresh) = inr (Some a).
Proof.
  destruct (final_pass_once_on_joined_summaries (T := headline)) as [HU HC].
  pose proof (HU a_b 1 true [a; b] fresh ui_pass [a; b]) as H1.
  pose proof (HC a_b m 1 true [a; b] fresh cli_loaded cli_pass m [a; b]) as H2.
  change (true && (1 <? len [a; b])) with true in H1, H2. cbv iota in H1, H2.
  rewrite H1, H2.
  - split; reflexivity.
  - reflexivity.
  - discriminate.
  - reflexivity.
  - reflexivity.
  - reflexivity.
  - discriminate.
  - reflexivity.
Defined.

Lemma per_chunk_request_bounds_witness :
  exists cs,
    calls (snd (App.summarize_chunks (T := headline) [a_b; b] 160 60 None
                  fresh))
    = calls fresh ++ cs
    /\ Forall (fun c => In (call_text c) [a_b; b] /\ within_policy 160 60 c) cs.
Proof.
  apply (per_chunk_request_bounds (T := headline) [a_b; b] 160 60 None
           fresh).
  lia.
Defined.

(** With a configured [max_length] of 10 the request for a chunk asks for
    up to 32 words. *)
Lemma per_chunk_request_above_configured_max :
  exists c,
    In c (calls (snd (App.summarize_chunks (T := headline) [a] 10 60 None
                        fresh)))
    /\ call_text c = a
    /\ call_max_length c = 32
    /\ ~ within_policy 10 60 c.
Proof.
  exists (@Call headline DEFAULT_MODEL a 32 16 (inr a)).
  split; [left; reflexivity|]. repeat split.
  unfold within_policy. simpl call_max_length. lia.
Qed.

Lemma empty_text_sentinel_witness :
  App.summarize_pdf_text (T := headline) (of_string "   ") 500 true fresh
  = (inr ([], []), fresh).
Proof.
  apply (empty_text_sentinel (T := headline)).
  repeat constructor.
Defined.

Lemma capability_failure_aborts_witness :
  fst (App.summarize_pdf_text (T := headline) (of_string "a !b c") 1 true fresh)
  = inl (@CapabilityFailure headline 1%nat).
Proof.
  destruct (capability_failure_aborts (T := headline)
              (of_string "a !b c") m 1 true [] 160 60 None) as (_ & H & _).
  destruct (H fresh
              (fst (App.summarize_pdf_text (T := headline) (of_string "a !b c") 1
                      true fresh))
              (snd (App.summarize_pdf_text (T := headline) (of_string "a !b c") 1
                      true fresh))
              [@Call headline DEFAULT_MODEL a 64 48 (inr a)]
              (@Call headline DEFAULT_MODEL (of_string "!b") 64 48 (inl 1%nat))
              [] 1%nat)
    as (_ & _ & E).
  - apply surjective_pairing.
  - reflexivity.
  - reflexivity.
  - exact E.
Defined.

End Examples.

(** ** More on splitting and stripping *)
Module TextFacts.
Import PyFacts PipelineFacts.

Lemma split_whitespace_blank (t cur : str) :
  Forall blank t ->
  split_whitespace cur t = match cur with [] => [] | _ :: _ => [cur] end.
Proof.
  intros Ht. revert cur. induction Ht as [|c t Hc _ IH]; intros cur; simpl.
  - reflexivity.
  - rewrite Hc. destruct cur; now rewrite IH.
Qed.

(** Whitespace at the end adds no word. *)
Lemma split_whitespace_tail (x t cur : str) :
  Forall blank t -> split_whitespace cur (x ++ t) = split_whitespace cur x.
Proof.
  intros Ht. revert cur. induction x as [|c x IH]; intros cur; simpl.
  - now apply split_whitespace_blank.
  - destruct (Py_UNICODE_ISSPACE c); [destruct cur|]; now rewrite IH.
Qed.

(** A whitespace character between two texts keeps their words apart. *)
Lemma split_whitespace_between (s1 s2 cur : str) (sp : char) :
  blank sp ->
  split_whitespace cur (s1 ++ sp :: s2) = split_whitespace cur s1 ++ split s2.
Proof.
  intros Hsp. revert cur. induction s1 as [|c s1 IH]; intros cur; simpl.
  - rewrite Hsp. now destruct cur.
  - destruct (Py_UNICODE_ISSPACE c); [destruct cur|]; now rewrite IH.
Qed.

Lemma split_join_by (sp : char) (parts : list str) :
  blank sp -> split (join [sp] parts) = concat (map split parts).
Proof.
  intros Hsp. induction parts as [|p parts IH]; [reflexivity|].
  destruct parts as [|q parts].
  - simpl. now rewrite app_nil_r.
  - change (join [sp] (p :: q :: parts)) with (p ++ sp :: join [sp] (q :: parts)).
    unfold split at 1. rewrite split_whitespace_between by assumption.
    now rewrite IH.
Qed.

Lemma lstrip_decompose (s : str) : exists b, Forall blank b /\ s = b ++ lstrip s.
Proof.
  induction s as [|c s (b & Hb & E)]; [now exists []|]. simpl.
  destruct (Py_UNICODE_ISSPACE c) eqn:Hc.
  - exists (c :: b). split; [now constructor | simpl; congruence].
  - now exists [].
Qed.

Lemma rstrip_decompose (s : str) : exists t, Forall blank t /\ s = rstrip s ++ t.
Proof.
  unfold rstrip. destruct (lstrip_decompose (rev s)) as (b & Hb & E).
  exists (rev b). split; [now apply Forall_rev|].
  rewrite <- rev_app_distr, <- E. now rewrite rev_involutive.
Qed.

Lemma split_lstrip (s : str) : split (lstrip s) = split s.
Proof.
  unfold split. induction s as [|c s IH]; [reflexivity|]. simpl.
  destruct (Py_UNICODE_ISSPACE c) eqn:Hc; [assumption|].
  simpl. now rewrite Hc.
Qed.

Lemma split_rstrip (s : str) : split (rstrip s) = split s.
Proof.
  destruct (rstrip_decompose s) as (t & Ht & E). rewrite E at 2.
  unfold split. now rewrite split_whitespace_tail.
Qed.

(** Stripping a text changes none of its words. *)
Lemma split_strip (s : str) : split (strip s) = split s.
Proof. unfold strip. now rewrite split_rstrip, split_lstrip. Qed.

Lemma lstrip_head (s : str) :
  match lstrip s with [] => True | c :: _ => nonspace c end.
Proof.
  induction s as [|c s IH]; simpl; [exact I|].
  destruct (Py_UNICODE_ISSPACE c) eqn:Hc; [assumption | exact Hc].
Qed.

Lemma last_cons {A} (d d' : A) (q : list A) : last (d :: q) d' = last q d.
Proof.
  revert d d'. induction q as [|x q IH]; intros d d'; [reflexivity|].
  change (last (d :: x :: q) d') with (last (x :: q) d').
  rewrite (IH x d'). symmetry. apply (IH x d).
Qed.

Lemma stripped_strip (s : str) : stripped (strip s).
Proof.
  unfold strip. set (x := lstrip s).
  pose proof (lstrip_head s) as Hx. fold x in Hx.
  destruct (rstrip_decompose x) as (t & Ht & E).
  unfold rstrip in *. pose proof (lstrip_head (rev x)) as Hy.
  destruct (lstrip (rev x)) as [|c r]; [exact I|].
  simpl rev in *. destruct (rev r ++ [c]) as [|d q] eqn:Er.
  { now destruct (rev r). }
  simpl. split.
  - rewrite E in Hx. exact Hx.
  - rewrite <- (last_cons d d), <- Er. now rewrite last_last.
Qed.

Lemma lstrip_nonspace (c : char) (s : str) : nonspace c -> lstrip (c :: s) = c :: s.
Proof. intros Hc. simpl. now rewrite Hc. Qed.

Lemma rev_last_first {A} (l : list A) (d : A) :
  l <> [] -> rev l = last l d :: rev (removelast l).
Proof.
  intros Hne. rewrite (app_removelast_last d Hne) at 1.
  now rewrite rev_app_distr.
Qed.

Lemma strip_stripped (s : str) : stripped s -> strip s = s.
Proof.
  destruct s as [|c rest]; [reflexivity|]. intros [Hc Hl].
  unfold strip, rstrip. rewrite lstrip_nonspace by assumption.
  assert (Hne : c :: rest <> []) by discriminate.
  rewrite (rev_last_first (c :: rest) c Hne).
  rewrite lstrip_nonspace by (now rewrite last_cons).
  rewrite <- (rev_last_first (c :: rest) c Hne). apply rev_involutive.
Qed.

Lemma split_whitespace_word (s cur : str) :
  cur <> [] -> split_whitespace cur s <> [].
Proof.
  revert cur. induction s as [|c s IH]; intros cur Hcur; simpl.
  - now destruct cur.
  - destruct (Py_UNICODE_ISSPACE c).
    + now destruct cur.
    + apply IH. now destruct cur.
Qed.

Lemma words_of_nonblank (s cur : str) :
  Exists nonspace s -> split_whitespace cur s <> [].
Proof.
  intros H. revert cur. induction H as [c s Hc | c s _ IH]; intros cur; simpl.
  - rewrite Hc. apply split_whitespace_word. now destruct cur.
  - destruct (Py_UNICODE_ISSPACE c); [destruct cur|]; try apply IH. discriminate.
Qed.

(** A text has a word exactly when it is not blank. *)
Lemma split_nil_iff (s : str) : split s = [] <-> Forall blank s.
Proof.
  split; [|apply split_blank].
  intros E. destruct (blank_or_not s) as [Hb|He]; [assumption|].
  now apply (words_of_nonblank s []) in He.
Qed.

Lemma strip_nil_iff (s : str) : strip s = [] <-> Forall blank s.
Proof.
  rewrite <- split_nil_iff. split; intros E.
  - now rewrite <- split_strip, E.
  - pose proof (stripped_strip s) as Hs. rewrite <- split_strip in E.
    destruct (strip s) as [|c r]; [reflexivity|]. destruct Hs as [Hc _].
    exfalso. apply (words_of_nonblank (c :: r) []); [now constructor | exact E].
Qed.

End TextFacts.

(** ** Extraction of the text of a PDF *)
Module ExtractFacts.
Import PyFacts PipelineFacts TextFacts.

Lemma app_parts {E} (pages : list (extraction E)) (parts : list str) :
  fold_left
    (fun parts page =>
       match page with
       | Raised _ => parts
       | Extracted t => parts ++ [or_empty t]
       end) pages parts
  = parts ++ readable pages.
Proof.
  revert parts. induction pages as [|page pages IH]; intros parts; simpl.
  - now rewrite app_nil_r.
  - rewrite IH. destruct page; [reflexivity | now rewrite <- app_assoc].
Qed.

Lemma cli_parts_readable {E} (pages : list (extraction E)) (parts : list str) :
  Forall (fun page => ~ unreadable page) pages ->
  Cli.extract_parts pages parts = inr (parts ++ readable pages).
Proof.
  intros H. revert parts. induction H as [|page pages Hp _ IH]; intros parts; simpl.
  - now rewrite app_nil_r.
  - destruct page; [now destruct Hp|]. now rewrite IH, <- app_assoc.
Qed.

Lemma cli_parts_unreadable {E} (before after : list (extraction E)) (e : E)
    (parts : list str) :
  Forall (fun page => ~ unreadable page) before ->
  Cli.extract_parts (before ++ Raised e :: after) parts = inl e.
Proof.
  intros H. revert parts. induction H as [|page pages Hp _ IH]; intros parts; simpl.
  - reflexivity.
  - destruct page; [now destruct Hp | apply IH].
Qed.

Lemma readable_app {E} (l1 l2 : list (extraction E)) :
  readable (l1 ++ l2) = readable l1 ++ readable l2.
Proof. apply flat_map_app. Qed.

Lemma concat_nil_iff {A} (ls : list (list A)) :
  concat ls = [] <-> Forall (fun l => l = []) ls.
Proof.
  induction ls as [|l ls IH]; simpl.
  - split; [constructor | reflexivity].
  - split.
    + intros E. apply app_eq_nil in E. destruct E as [-> E].
      constructor; [reflexivity | now apply IH].
    + intros H. inversion H as [|? ? -> Hls]; subst. now apply IH.
Qed.

(** The words of the text joined from the parts are the words of the
    parts, in order. *)
Lemma words_of_joined_parts (parts : list str) :
  split (strip (join NEWLINE parts)) = concat (map split parts).
Proof. rewrite split_strip. now apply split_join_by. Qed.

Lemma joined_parts_empty (parts : list str) :
  strip (join NEWLINE parts) = [] <-> Forall (Forall blank) parts.
Proof.
  rewrite strip_nil_iff, <- split_nil_iff, (split_join_by 10%N) by reflexivity.
  rewrite concat_nil_iff, Forall_map.
  split; intros H; (eapply Forall_impl; [|exact H]); intros p; apply split_nil_iff.
Qed.

(** What the UI extracts from the pages of an open reader. *)
Lemma ui_extracted_text {E} (pages : list (extraction E)) :
  exists text,
    App.extract_text_from_pdf (inr pages) = inr text
    /\ stripped text
    /\ strip text = text
    /\ split text = concat (map split (readable pages)).
Proof.
  unfold App.extract_text_from_pdf. rewrite app_parts, app_nil_l.
  eexists. split; [reflexivity|]. split; [apply stripped_strip|].
  split; [apply strip_stripped, stripped_strip|].
  apply words_of_joined_parts.
Qed.

(** X1 -- Once the reader is open, [extract_text_from_pdf] never raises,
    whatever pages cannot be read: it returns a text with no whitespace
    at either end whose words are the words of the readable pages, page
    after page; words of different pages are never glued together. *)
Theorem ui_extraction_keeps_readable_words {E} (pages : list (extraction E)) :
  exists text,
    App.extract_text_from_pdf (inr pages) = inr text
    /\ stripped text
    /\ strip text = text
    /\ split text = concat (map split (readable pages)).
Proof. apply ui_extracted_text. Qed.

(** X2 -- On a file all of whose pages can be read, the CLI's
    [extract_text] and the UI's [extract_text_from_pdf] return the same
    text; on a file that cannot be opened both raise the reader's
    exception. *)
Theorem extraction_ui_cli_agree {E} (pages : list (extraction E)) :
  Forall (fun page => ~ unreadable page) pages ->
  Cli.extract_text (inr pages) = App.extract_text_from_pdf (inr pages)
  /\ forall e : E, Cli.extract_text (inl e) = App.extract_text_from_pdf (inl e).
Proof.
  intros H. split; [|reflexivity].
  unfold Cli.extract_text, App.extract_text_from_pdf.
  now rewrite cli_parts_readable, app_parts.
Qed.

Lemma extraction_ui_cli_agree_witness :
  Cli.extract_text sound = App.extract_text_from_pdf sound
  /\ forall e : nat, Cli.extract_text (inl e) = App.extract_text_from_pdf (inl e).
Proof.
  apply (extraction_ui_cli_agree
           [Extracted (Some (of_string " one two")); Extracted None;
            Extracted (Some (of_string "three "))]).
  repeat constructor; intros H; exact H.
Defined.

(** X3 -- On a file with a page that cannot be read, the CLI's
    [extract_text] raises the exception of the first such page, while the
    UI's [extract_text_from_pdf] skips the page and returns the words of
    the pages around it. *)
Theorem extraction_of_damaged_file {E} (before after : list (extraction E)) (e : E) :
  Forall (fun page => ~ unreadable page) before ->
  Cli.extract_text (inr (before ++ Raised e :: after)) = inl e
  /\ exists text,
       App.extract_text_from_pdf (inr (before ++ Raised e :: after)) = inr text
       /\ split text
          = concat (map split (readable before)) ++ concat (map split (readable after)).
Proof.
  intros H. split.
  - unfold Cli.extract_text. now rewrite cli_parts_unreadable.
  - destruct (ui_extracted_text (before ++ Raised e :: after))
      as (text & Ht & _ & _ & Hw).
    exists text. split; [assumption|].
    rewrite Hw, readable_app, map_app, concat_app. reflexivity.
Qed.

Lemma extraction_of_damaged_file_witness :
  Cli.extract_text damaged = inl 7%nat
  /\ exists text,
       App.extract_text_from_pdf damaged = inr text
       /\ split text
          = concat (map split (readable [Extracted (E := nat) (Some (of_string " one two"))]))
            ++ concat (map split (readable [Extracted (E := nat) None;
                                            Extracted (Some (of_string "three "))])).
Proof.
  apply (extraction_of_damaged_file
           [Extracted (Some (of_string " one two"))]
           [Extracted None; Extracted (Some (of_string "three "))] 7%nat).
  repeat constructor. intros H. exact H.
Defined.

(** X4 -- The text extracted by the UI is the empty string, which is
    what makes the script report that nothing could be extracted, exactly
    when no readable page holds a word. *)
Theorem ui_extraction_empty_iff {E} (pages : list (extraction E)) :
  App.extract_text_from_pdf (inr pages) = inr []
  <-> Forall (Forall blank) (readable pages).
Proof.
  unfold App.extract_text_from_pdf. rewrite app_parts, app_nil_l.
  rewrite <- joined_parts_empty. split; [|now intros ->].
  intros H. now injection H.
Qed.

End ExtractFacts.

(** ** More on the chunkers *)
Module ChunkMore.
Import PyFacts WindowFacts ChunkFacts PipelineFacts TextFacts.

Lemma range_length_ceil (n m : Z) :
  0 < m -> 0 <= n -> Z.of_nat (range_length 0 n m) = ceil_div n m.
Proof.
  intros Hm Hn. destruct (range_length_covers n m Hm Hn) as (Hc & Hlast & Hzero).
  cbv zeta in *. set (c := Z.of_nat (range_length 0 n m)) in *.
  unfold ceil_div.
  apply (Z.div_unique (n + m - 1) m c (n + m - 1 - c * m)); [|lia].
  left. destruct (Z.eq_dec n 0) as [E|E].
  - rewrite (Hzero E). lia.
  - assert (0 <= c) by (unfold c; lia). destruct Hlast as [Hl _]; lia.
Qed.

(** What every chunk is made of. *)
Lemma chunk_shape (text : str) (m : Z) (chunks : list str) :
  0 < m -> App.chunk_text text m = inr chunks ->
  Forall (fun chunk => exists win,
              chunk = join SPACE win /\ Forall is_word win
              /\ win <> [] /\ len win <= m) chunks.
Proof.
  intros Hm Hc. rewrite app_chunk_text_windows in Hc by assumption.
  injection Hc as <-. apply Forall_map, Forall_forall. intros win Hin.
  apply In_nth_error in Hin. destruct Hin as [k Hk].
  apply nth_error_windows in Hk. destruct Hk as [Hlt ->].
  eexists. split; [reflexivity|]. split; [|split].
  - rewrite Forall_forall. intros w Hw.
    pose proof (split_words text) as Hall. rewrite Forall_forall in Hall.
    eapply Hall, In_skipn, In_firstn, Hw.
  - now apply window_nonempty.
  - unfold len. rewrite length_window by assumption. lia.
Qed.

Lemma single_window {A} (win : list A) (m : Z) :
  0 < m -> win <> [] -> len win <= m ->
  windows (Z.to_nat m) win (range_length 0 (len win) m) = [win].
Proof.
  intros Hm Hne Hle.
  assert (Hpos : 0 < len win) by (destruct win; [contradiction | unfold len; simpl; lia]).
  assert (Hone : range_length 0 (len win) m = 1%nat).
  { apply Nat2Z.inj. rewrite range_length_ceil by lia. unfold ceil_div.
    symmetry. apply (Z.div_unique _ m 1 (len win - 1)); lia. }
  rewrite Hone. unfold windows. simpl. rewrite firstn_all2; [reflexivity|].
  unfold len in Hle. lia.
Qed.

Lemma chunk_count_ceil (text : str) (max_words : Z) :
  0 < max_words ->
  exists chunks,
    App.chunk_text text max_words = inr chunks
    /\ Cli.chunk_text text max_words = inr chunks
    /\ len chunks = ceil_div (len (split text)) max_words.
Proof.
  intros Hm. eexists. split; [now apply app_chunk_text_windows|].
  split; [now apply cli_chunk_text_windows|].
  unfold len at 1. rewrite length_map, length_windows.
  apply range_length_ceil; [assumption | unfold len; lia].
Qed.

(** X5 -- For a positive [max_words] the number of chunks is the number
    of words of the text divided by [max_words], rounded up. *)
Theorem chunk_text_count (text : str) (max_words : Z) :
  0 < max_words ->
  exists chunks,
    App.chunk_text text max_words = inr chunks
    /\ Cli.chunk_text text max_words = inr chunks
    /\ len chunks = ceil_div (len (split text)) max_words.
Proof. apply chunk_count_ceil. Qed.

Lemma chunk_text_count_witness :
  exists chunks,
    App.chunk_text (of_string "a b c d e") 2 = inr chunks
    /\ Cli.chunk_text (of_string "a b c d e") 2 = inr chunks
    /\ len chunks = ceil_div (len (split (of_string "a b c d e"))) 2.
Proof. apply (chunk_text_count (of_string "a b c d e") 2). lia. Defined.

(** X6 -- A [max_words] that is not positive gives no chunk: both
    chunkers raise [ValueError] when it is zero and return the empty list
    when it is negative, whatever the text. *)
Theorem chunk_text_not_positive (text : str) (max_words : Z) :
  max_words <= 0 ->
  let expected := if max_words =? 0 then inl ValueError else inr [] in
  App.chunk_text text max_words = expected
  /\ Cli.chunk_text text max_words = expected.
Proof.
  intros Hm. cbv zeta. destruct (Z.eqb_spec max_words 0) as [->|Hne].
  - apply chunk_text_zero.
  - apply chunk_text_negative. lia.
Qed.

Lemma chunk_text_not_positive_witness :
  App.chunk_text (of_string "a b c") (-3) = inr []
  /\ Cli.chunk_text (of_string "a b c") (-3) = inr [].
Proof. apply (chunk_text_not_positive (of_string "a b c") (-3)). lia. Defined.

(** X7 -- Round trip: joining the chunks of a text by single spaces and
    chunking the result again, with the same positive [max_words], gives
    the same chunks. *)
Theorem chunk_text_join_round_trip (text : str) (max_words : Z) (chunks : list str) :
  0 < max_words ->
  App.chunk_text text max_words = inr chunks ->
  App.chunk_text (join SPACE chunks) max_words = inr chunks
  /\ Cli.chunk_text (join SPACE chunks) max_words = inr chunks.
Proof.
  intros Hm Hc.
  assert (Hw : split (join SPACE chunks) = split text).
  { rewrite (split_join_by 32%N) by reflexivity.
    rewrite app_chunk_text_windows in Hc by assumption. injection Hc as <-.
    now apply joined_windows_lossless. }
  rewrite <- chunk_text_agree. split; [|];
    rewrite app_chunk_text_windows, Hw by assumption;
    now rewrite <- app_chunk_text_windows.
Qed.

Lemma chunk_text_join_round_trip_witness :
  App.chunk_text (join SPACE [of_string "a b"; of_string "c"]) 2
  = inr [of_string "a b"; of_string "c"]
  /\ Cli.chunk_text (join SPACE [of_string "a b"; of_string "c"]) 2
     = inr [of_string "a b"; of_string "c"].
Proof.
  apply (chunk_text_join_round_trip (of_string " a  b c ") 2); [lia | reflexivity].
Defined.

(** X8 -- Every chunk is in normal form: it is its own words joined by
    single spaces, so it has no whitespace at its ends and none but single
    spaces inside; chunking a chunk again with the same positive
    [max_words] returns that chunk alone. *)
Theorem chunks_are_normal (text : str) (max_words : Z) (chunks : list str) (chunk : str) :
  0 < max_words ->
  App.chunk_text text max_words = inr chunks ->
  In chunk chunks ->
  join SPACE (split chunk) = chunk
  /\ App.chunk_text chunk max_words = inr [chunk].
Proof.
  intros Hm Hc Hin. pose proof (chunk_shape text max_words chunks Hm Hc) as Hs.
  rewrite Forall_forall in Hs. destruct (Hs chunk Hin) as (win & -> & Hw & Hne & Hle).
  rewrite app_chunk_text_windows by assumption.
  rewrite split_join by assumption. split; [reflexivity|].
  now rewrite single_window.
Qed.

Lemma chunks_are_normal_witness :
  join SPACE (split (of_string "a b")) = of_string "a b"
  /\ App.chunk_text (of_string "a b") 2 = inr [of_string "a b"].
Proof.
  apply (chunks_are_normal (of_string " a  b c ") 2 [of_string "a b"; of_string "c"]);
    [lia | reflexivity | left; reflexivity].
Defined.

End ChunkMore.

(** ** More on the runs *)
Module RunMore.
Import RunFacts.
Section WithTransformers.
Context {T : Transformers}.

Lemma calls_satisfy_quiet {A} (P : call -> Prop) (m : M A) :
  (forall w, calls (snd (m w)) = calls w) -> calls_satisfy P m.
Proof. intros H w. exists []. rewrite H, app_nil_r. split; constructor. Qed.

Lemma calls_satisfy_ret {A} (P : call -> Prop) (a : A) : calls_satisfy P (ret a).
Proof. now apply calls_satisfy_quiet. Qed.

Lemma calls_satisfy_lift {A} (P : call -> Prop) (r : builtin_exn + A) :
  calls_satisfy P (lift r).
Proof. apply calls_satisfy_quiet. now destruct r. Qed.

Lemma calls_satisfy_pipeline (P : call -> Prop) (model : str) :
  calls_satisfy P (pipeline model).
Proof.
  apply calls_satisfy_quiet. intros w.
  now destruct (pipeline_run model w) as (r & st & _ & ->).
Qed.

Lemma calls_satisfy_get_summarizer (P : call -> Prop) (key : cache_key) :
  calls_satisfy P (App.get_summarizer key).
Proof.
  apply calls_satisfy_quiet. intros w.
  destruct (get_summarizer_run key w) as [[_ ->] | (_ & r & st & _ & ->)];
    [reflexivity | now destruct r].
Qed.

Lemma calls_satisfy_summarize (P : call -> Prop) (s text : str) (ml mn : Z) :
  (forall out, P (Call s text ml mn out)) ->
  calls_satisfy P (summarize s text ml mn).
Proof.
  intros HP w. destruct (summarize_run s text ml mn w) as (out & st & _ & ->).
  exists [Call s text ml mn out]. split; [reflexivity|]. now repeat constructor.
Qed.

Lemma calls_satisfy_bind {A B} (P : call -> Prop) (m : M A) (k : A -> M B) :
  calls_satisfy P m -> (forall a, calls_satisfy P (k a)) ->
  calls_satisfy P (bind m k).
Proof.
  intros Hm Hk w. destruct (Hm w) as (cs1 & Hc1 & HP1). unfold bind.
  destruct (m w) as [[e|a] w1]; simpl in *.
  - now exists cs1.
  - destruct (Hk a w1) as (cs2 & Hc2 & HP2). exists (cs1 ++ cs2).
    rewrite Hc2, Hc1, app_assoc. split; [reflexivity|]. apply Forall_app. now split.
Qed.

Lemma calls_satisfy_ext {A} (P : call -> Prop) (m m' : M A) :
  (forall w, m w = m' w) -> calls_satisfy P m' -> calls_satisfy P m.
Proof. intros E H w. rewrite E. apply H. Qed.

Lemma calls_satisfy_loop (P : call -> Prop) (bounds : str -> Z * Z) (s : summarizer)
    (chunks summaries : list str) :
  (forall ch out, In ch chunks ->
     P (Call s ch (fst (bounds ch)) (snd (bounds ch)) out)) ->
  calls_satisfy P (loop_with bounds s chunks summaries).
Proof.
  revert summaries. induction chunks as [|ch rest IH]; intros summaries HP; simpl.
  - apply calls_satisfy_ret.
  - apply calls_satisfy_bind.
    + apply calls_satisfy_summarize. intros out. apply HP. now left.
    + intros out. apply IH. intros ch' out' Hin. apply HP. now right.
Qed.

(** *** Exceptions of the library *)







(** *** The calls of a loop that returns *)

Lemma chunk_calls_cons (bounds : str -> Z * Z) (s : summarizer)
    (ch out : str) (chunks outs : list str) :
  chunk_calls bounds s (ch :: chunks) (out :: outs)
  = chunk_call bounds s ch out :: chunk_calls bounds s chunks outs.
Proof. reflexivity. Qed.

(** A loop that returns made one call per chunk, in the order of the
    chunks, and returns the summaries of these calls in that order. *)
Lemma loop_with_trace (bounds : str -> Z * Z) (s : summarizer)
    (chunks summaries ss : list str) (w w' : world) :
  loop_with bounds s chunks summaries w = (inr ss, w') ->
  exists outs,
    ss = summaries ++ outs
    /\ List.length outs = List.length chunks
    /\ requested w' = requested w
    /\ calls w' = calls w ++ chunk_calls bounds s chunks outs.
Proof.
  revert summaries w. induction chunks as [|ch rest IH]; intros summaries w H.
  - injection H as <- <-. exists []. simpl. now rewrite !app_nil_r.
  - simpl in H. unfold bind in H.
    destruct (summarize_run s ch (fst (bounds ch)) (snd (bounds ch)) w)
      as (out & st & _ & E).
    rewrite E in H. destruct out as [e|t]; [discriminate|].
    apply IH in H. destruct H as (outs & -> & Hlen & Hreq & Hcalls).
    exists (t :: outs). rewrite <- app_assoc. simpl in *.
    rewrite Hlen, Hreq, Hcalls, <- app_assoc. repeat split.
Qed.

Lemma length_chunk_calls (bounds : str -> Z * Z) (s : summarizer)
    (chunks outs : list str) :
  List.length outs = List.length chunks ->
  List.length (chunk_calls bounds s chunks outs) = List.length chunks.
Proof.
  intros H. unfold chunk_calls. rewrite length_map, length_combine. lia.
Qed.

End WithTransformers.
End RunMore.

(** ** More on the two pipelines *)
Module PipelineMore.
Import PyFacts WindowFacts ChunkFacts RunFacts PipelineFacts TextFacts ChunkMore RunMore.
Section WithTransformers.
Context {T : Transformers}.


Lemma uses_only_calls {A} (model : str) (m : M A) :
  uses_only model m -> calls_satisfy (fun c => call_model c = model) m.
Proof.
  intros H w. destruct (H w) as (rs & cs & _ & Hc & _ & Hcs). now exists cs.
Qed.

Lemma app_summarize_chunks_uses (chunks : list str) (ml mn : Z) (kw : option str) :
  uses_only (match kw with Some m => m | None => DEFAULT_MODEL end)
    (App.summarize_chunks chunks ml mn kw).
Proof.
  unfold App.summarize_chunks.
  eapply uses_only_ext; [apply get_summarizer_is_summarizer|].
  apply uses_only_bind;
    [apply (uses_only_get_summarizer
              (Some (match kw with Some m => m | None => DEFAULT_MODEL end)))|].
  intros _.
  eapply uses_only_ext; [apply app_loop_with | apply uses_only_loop].
Qed.

Lemma app_pipeline_uses (text : str) (n : Z) (fp : bool) :
  uses_only DEFAULT_MODEL (App.summarize_pdf_text text n fp).
Proof.
  unfold App.summarize_pdf_text.
  destruct (_ || _); [apply uses_only_ret|].
  apply uses_only_bind; [apply uses_only_lift|]. intros chunks.
  destruct (len chunks =? 0); [apply uses_only_ret|].
  apply uses_only_bind; [apply (app_summarize_chunks_uses chunks 160 60 None)|].
  intros ss. destruct (fp && _).
  - eapply uses_only_ext; [apply get_summarizer_is_summarizer|].
    apply uses_only_bind; [apply (uses_only_get_summarizer None)|]. intros _.
    apply uses_only_bind; [apply (uses_only_summarize (model_of None))|]. intros f.
    apply uses_only_ret.
  - apply uses_only_bind; [apply uses_only_lift|]. intros f.
    apply uses_only_ret.
Qed.

(** What a pass of the UI over the chunks that returns has done. *)
Lemma app_chunk_pass_trace (chunks ss : list str) (ml mn : Z) (kw : option str)
    (w w' : world) :
  App.summarize_chunks chunks ml mn kw w = (inr ss, w') ->
  let model := match kw with Some m => m | None => DEFAULT_MODEL end in
  List.length ss = List.length chunks
  /\ requested w'
     = requested w ++ (if App.cached (Some model) w then [] else [model])
  /\ calls w' = calls w ++ chunk_calls (app_bounds ml mn) model chunks ss.
Proof.
  cbv zeta. unfold App.summarize_chunks, bind.
  set (model := match kw with Some m => m | None => DEFAULT_MODEL end).
  intros H.
  destruct (App.get_summarizer (Some model) w) as [[e|s] w0] eqn:Hg;
    [discriminate|].
  apply get_summarizer_returns in Hg. destruct Hg as (-> & Hc0 & Hr0).
  rewrite app_loop_with in H. apply loop_with_trace in H.
  destruct H as (outs & -> & Hlen & Hreq & Hcalls).
  rewrite Hreq, Hcalls, Hr0, Hc0. now repeat split.
Qed.

Lemma cli_chunk_pass_trace (s : summarizer) (chunks ss : list str) (w0 wC : world) :
  Cli.summarize_loop s chunks [] w0 = (inr ss, wC) ->
  List.length ss = List.length chunks
  /\ requested wC = requested w0
  /\ calls wC = calls w0 ++ chunk_calls cli_bounds s chunks ss.
Proof.
  rewrite cli_loop_with. intros H. apply loop_with_trace in H.
  destruct H as (outs & -> & Hlen & Hreq & Hcalls). now repeat split.
Qed.

(** X9 -- Order preservation: a pass over the chunks that returns, in
    the UI ([summarize_chunks]) as in the CLI (the loop of [main]), has
    called its summarizer once per chunk, in the order of the chunks, and
    returns the summaries of these calls in that order; the UI calls it
    with the bounds of its guardrail, the CLI with 160 and 60.  The UI
    has a pipeline built only when the cache holds none for the model
    name; the loop of the CLI builds none. *)
Theorem chunk_summaries_in_order :
  (forall (chunks ssU : list str) (ml mn : Z) (kwargs : option str)
          (w wU : world),
      App.summarize_chunks chunks ml mn kwargs w = (inr ssU, wU) ->
      let model := match kwargs with Some m => m | None => DEFAULT_MODEL end in
      List.length ssU = List.length chunks
      /\ requested wU
         = requested w ++ (if App.cached (Some model) w then [] else [model])
      /\ calls wU = calls w ++ chunk_calls (app_bounds ml mn) model chunks ssU)
  /\ (forall (chunks ssC : list str) (s : summarizer) (w0 wC : world),
         Cli.summarize_loop s chunks [] w0 = (inr ssC, wC) ->
         List.length ssC = List.length chunks
         /\ requested wC = requested w0
         /\ calls wC = calls w0 ++ chunk_calls cli_bounds s chunks ssC).
Proof.
  split.
  - intros chunks ssU ml mn kwargs w wU. apply app_chunk_pass_trace.
  - intros chunks ssC s w0 wC. apply cli_chunk_pass_trace.
Qed.

(** X10 -- The CLI asks for the pipeline of the model it was given and
    of no other, calls no other summarizer, and every call it makes has
    the fixed bounds 160 and 60, or 220 and 90: the bounds never depend on
    the length of the chunk. *)
Theorem cli_main_model_and_bounds (text model : str) (n : Z) (fp : bool) :
  uses_only model (Cli.main text model n fp)
  /\ calls_satisfy
       (fun c => (call_max_length c, call_min_length c) = (160, 60)
                 \/ (call_max_length c, call_min_length c) = (220, 90))
       (Cli.main text model n fp).
Proof.
  unfold Cli.main. split.
  - destruct (negb _); [apply uses_only_ret|].
    apply uses_only_bind; [apply uses_only_lift|]. intros chunks.
    eapply uses_only_ext; [apply pipeline_is_summarizer|].
    apply uses_only_bind; [apply uses_only_pipeline|]. intros _.
    apply uses_only_bind.
    { eapply uses_only_ext; [apply cli_loop_with | apply uses_only_loop]. }
    intros ss. destruct (fp && _); [|apply uses_only_ret].
    apply uses_only_bind; [apply uses_only_summarize|]. intros f.
    apply uses_only_ret.
  - destruct (negb _); [apply calls_satisfy_ret|].
    apply calls_satisfy_bind; [apply calls_satisfy_lift|]. intros chunks.
    apply calls_satisfy_bind; [apply calls_satisfy_pipeline|]. intros s.
    apply calls_satisfy_bind.
    { eapply calls_satisfy_ext; [apply cli_loop_with|].
      apply calls_satisfy_loop. intros ch out _. now left. }
    intros ss. destruct (fp && _); [|apply calls_satisfy_ret].
    apply calls_satisfy_bind; [|intros f; apply calls_satisfy_ret].
    apply calls_satisfy_summarize. intros out. now right.
Qed.

(** X11 -- [summarize_chunks] honours its [model_name] keyword: with it,
    the pipeline asked for and every summarizer called are those of that
    model; without it, those of the default model. *)
Theorem summarize_chunks_honours_model_name (chunks : list str) (ml mn : Z)
    (model_name : str) :
  uses_only model_name (App.summarize_chunks chunks ml mn (Some model_name))
  /\ uses_only DEFAULT_MODEL (App.summarize_chunks chunks ml mn None).
Proof.
  split.
  - apply (app_summarize_chunks_uses chunks ml mn (Some model_name)).
  - apply (app_summarize_chunks_uses chunks ml mn None).
Qed.

Lemma nonblank_passes_guard (text : str) :
  Exists nonspace text -> truthy text = true /\ truthy (strip text) = true.
Proof.
  intros H. apply words_pass_guard. now apply (words_of_nonblank text []).
Qed.

(** X12 -- With a chunk size of zero and a text that is not blank, the
    UI pipeline and the CLI both raise [ValueError] before anything else
    happens: no pipeline is asked for and no summarizer is called. *)
Theorem zero_chunk_size_raises (text model : str) (fp : bool) (w : world) :
  Exists nonspace text ->
  App.summarize_pdf_text text 0 fp w = (inl (Builtin ValueError), w)
  /\ Cli.main text model 0 fp w = (inl (Builtin ValueError), w).
Proof.
  intros H. destruct (nonblank_passes_guard text H) as [Ht Hs].
  unfold App.summarize_pdf_text, Cli.main. rewrite Ht, Hs.
  destruct (chunk_text_zero text) as [-> ->]. split; reflexivity.
Qed.


Lemma bind_inl {A B} (m : M A) (k : A -> M B) (w w1 : world) (e : exn) :
  m w = (inl e, w1) -> bind m k w = (inl e, w1).
Proof. intros H. unfold bind. now rewrite H. Qed.



Lemma index_nonempty {A} (l : list A) : l <> [] -> exists x, index l 0 = inr x.
Proof. destruct l as [|x l]; [contradiction | now exists x]. Qed.


Lemma guard_blank (text : str) :
  negb (truthy text) || negb (truthy (strip text)) = true -> split text = [].
Proof.
  intros G. apply split_nil_iff, strip_nil_iff.
  destruct text as [|c r]; [reflexivity|]. simpl in G.
  now destruct (strip (c :: r)).
Qed.

Lemma ceil_div_zero (n : Z) : 0 < n -> ceil_div 0 n = 0.
Proof. intros H. unfold ceil_div. apply Z.div_small. lia. Qed.

Lemma len_nil_iff {A} (l : list A) : len l = 0 <-> l = [].
Proof.
  unfold len. destruct l; simpl; split; intros; try reflexivity; try discriminate; lia.
Qed.

(** The counts of a run of the UI pipeline that returns. *)
Lemma app_pipeline_counts (text : str) (n : Z) (fp : bool) (w w' : world)
    (final : str) (ss : list str) :
  0 < n ->
  App.summarize_pdf_text text n fp w = (inr (final, ss), w') ->
  len ss = ceil_div (len (split text)) n
  /\ exists cs,
       calls w' = calls w ++ cs
       /\ len cs = len ss + (if fp && (1 <? len ss) then 1 else 0).
Proof.
  intros Hn H. unfold App.summarize_pdf_text in H.
  destruct (_ || _) eqn:G.
  { injection H as <- <- <-. rewrite (guard_blank text G).
    split; [now rewrite ceil_div_zero|].
    exists []. rewrite app_nil_r, andb_false_r. now split. }
  destruct (chunk_count_ceil text n Hn) as (chunks & Hc & _ & Hcount).
  rewrite Hc in H. erewrite bind_inr in H by reflexivity.
  destruct (Z.eqb_spec (len chunks) 0) as [Hz|Hnz].
  { injection H as <- <- <-. split; [now rewrite <- Hcount|].
    exists []. rewrite app_nil_r, andb_false_r. now split. }
  destruct (App.summarize_chunks chunks 160 60 None w) as [[e|ss0] wU] eqn:HU.
  { erewrite bind_inl in H by exact HU. discriminate. }
  erewrite bind_inr in H by exact HU.
  destruct (app_chunk_pass_trace _ _ _ _ _ _ _ HU) as (Hlen & _ & Hcalls).
  cbv zeta in Hcalls.
  assert (Hcs : len (chunk_calls (app_bounds 160 60) DEFAULT_MODEL chunks ss0) = len ss0).
  { unfold len. now rewrite length_chunk_calls, Hlen. }
  destruct (fp && (1 <? len ss0)) eqn:Hfp.
  - destruct (App.get_summarizer None wU) as [[e|s] wF] eqn:Hg.
    { erewrite bind_inl in H by exact Hg. discriminate. }
    erewrite bind_inr in H by exact Hg.
    apply get_summarizer_returns in Hg. destruct Hg as (-> & HcF & _).
    rewrite (final_call (model_of None) (join SPACE ss0) _ (fun f => (f, ss0))) in H.
    destruct (run_model (model_of None) _ (join SPACE ss0) 220 90) as [[e|f] st];
      [discriminate|].
    injection H as <- <- <-. rewrite Hfp. split.
    + unfold len in *. rewrite Hlen. exact Hcount.
    + eexists. simpl calls. rewrite HcF, Hcalls, <- app_assoc.
      split; [reflexivity|].
      unfold len in *. rewrite length_app. simpl. lia.
  - destruct (index_nonempty ss0) as [x Hx].
    { intros ->. apply Hnz. destruct chunks; [reflexivity | discriminate]. }
    rewrite Hx in H. erewrite bind_inr in H by reflexivity.
    injection H as <- <- <-. rewrite Hfp. split.
    + unfold len in *. rewrite Hlen. exact Hcount.
    + eexists. split; [exact Hcalls | lia].
Qed.

(** X15 -- When the UI pipeline returns, with a positive chunk size, it
    returns one chunk summary per chunk, that is as many as the number of
    words of the text divided by the chunk size, rounded up, and it has
    made one call per chunk summary, plus one when the final pass is asked
    for and there is more than one chunk summary. *)
Theorem summarize_pdf_text_counts (text : str) (n : Z) (fp : bool) (w w' : world)
    (final : str) (ss : list str) :
  0 < n ->
  App.summarize_pdf_text text n fp w = (inr (final, ss), w') ->
  len ss = ceil_div (len (split text)) n
  /\ exists cs,
       calls w' = calls w ++ cs
       /\ len cs = len ss + (if fp && (1 <? len ss) then 1 else 0).
Proof. apply app_pipeline_counts. Qed.

(** X16 -- The model selected in the sidebar has no part in the
    summaries: pressing the button has its pipeline built first, and after
    that only pipelines of the default model, and every summarizer call is
    a call of the default model.  A selected model that cannot be loaded
    still ends the run at once, with nothing summarized. *)
Theorem summarize_button_ignores_selected_model (model_name raw_text : str)
    (n : Z) (fp : bool) :
  calls_satisfy (fun c => call_model c = DEFAULT_MODEL)
    (App.summarize_button model_name raw_text n fp)
  /\ (forall w, exists rs,
        requested (snd (App.summarize_button model_name raw_text n fp w))
        = requested w ++ model_name :: rs
        /\ Forall (eq DEFAULT_MODEL) rs)
  /\ (forall e w st,
        load_model model_name (lib w) = (Some e, st) ->
        App.summarize_button model_name raw_text n fp w
        = (inl (ModelLoadFailure e),
           World st [] (requested w ++ [model_name]) (calls w))).
Proof.
  unfold App.summarize_button. split; [|split].
  - apply calls_satisfy_bind; [now apply calls_satisfy_quiet|]. intros _.
    apply calls_satisfy_bind; [apply calls_satisfy_get_summarizer|]. intros _.
    apply uses_only_calls, app_pipeline_uses.
  - intros w. unfold bind at 1. cbn [App.get_summarizer_clear].
    set (w1 := World (lib w) [] (requested w) (calls w)). unfold bind.
    destruct (get_summarizer_run (Some model_name) w1)
      as [[Hc _] | (_ & r & st & _ & ->)]; [discriminate|].
    destruct r.
    + exists []. simpl. split; [reflexivity | constructor].
    + destruct (app_pipeline_uses raw_text n fp
                  (World st (Some model_name :: cache w1)
                     (requested w1 ++ [model_of (Some model_name)]) (calls w1)))
        as (rs & cs & Hr & _ & Hrs & _).
      exists rs. split; [|assumption]. etransitivity; [exact Hr|].
      simpl. now rewrite <- app_assoc.
  - intros e w st Hload. unfold bind, App.get_summarizer, pipeline. simpl.
    now rewrite Hload.
Qed.

Lemma cli_parts_returned {E} (pages : list (extraction E)) (acc parts : list str) :
  Cli.extract_parts pages acc = inr parts -> parts = acc ++ readable pages.
Proof.
  revert acc. induction pages as [|page pages IH]; intros acc H; simpl in *.
  - injection H as <-. now rewrite app_nil_r.
  - destruct page; [discriminate|]. apply IH in H. now rewrite <- app_assoc in H.
Qed.

(** X17 -- The CLI stops at its no-text message exactly when the
    extracted text is empty, which is exactly when no page holds a word;
    it then asks for no pipeline and makes no call.  On any other text it
    goes on to a final summary or to an exception. *)
Theorem cli_stops_without_text {E} (pages : list (extraction E)) (text model : str)
    (n : Z) (fp : bool) (w : world) :
  Cli.extract_text (inr pages) = inr text ->
  (text = [] <-> Forall (Forall blank) (readable pages))
  /\ (text = [] -> Cli.main text model n fp w = (inr None, w))
  /\ (text <> [] -> fst (Cli.main text model n fp w) <> inr None).
Proof.
  intros H. unfold Cli.extract_text in H.
  destruct (Cli.extract_parts pages []) as [e|parts] eqn:Hp; [discriminate|].
  apply cli_parts_returned in Hp. simpl in Hp. subst parts.
  injection H as <-. split; [|split].
  - apply ExtractFacts.joined_parts_empty.
  - intros ->. reflexivity.
  - intros Hne. destruct (strip _) as [|c r]; [contradiction|].
    unfold Cli.main. cbn [truthy negb]. unfold bind.
    destruct (lift _ w) as [[e|chunks] w1]; [discriminate|].
    destruct (pipeline model w1) as [[e|s] w2]; [discriminate|].
    destruct (Cli.summarize_loop s chunks [] w2) as [[e|ss] w3]; [discriminate|].
    destruct (fp && _); [|discriminate].
    destruct (summarize s _ 220 90 w3) as [[e|f] w4]; discriminate.
Qed.

(** X18 -- With the configured bounds that [summarize_pdf_text] passes,
    160 and 60, every request of [summarize_chunks] asks for at most
    between 64 and 160 words and for at least between 48 and 60 words; it
    asks for the full 160 and 60, the bounds the CLI always uses, exactly
    for the chunks of 320 words or more. *)
Theorem default_policy_bounds (chunks : list str) (kwargs : option str) :
  calls_satisfy
    (fun c => 64 <= call_max_length c <= 160
              /\ 48 <= call_min_length c <= 60
              /\ (call_max_length c = 160 /\ call_min_length c = 60
                  <-> 320 <= word_count (call_text c)))
    (App.summarize_chunks chunks 160 60 kwargs).
Proof.
  unfold App.summarize_chunks.
  apply calls_satisfy_bind; [apply calls_satisfy_get_summarizer|]. intros s.
  eapply calls_satisfy_ext; [apply app_loop_with|].
  apply calls_satisfy_loop. intros ch out _. simpl.
  unfold App.chunk_min_length, App.chunk_max_length, word_count.
  assert (Hw : 0 <= len (split ch)) by (unfold len; lia).
  pose proof (Z.div_mod (len (split ch)) 2 ltac:(lia)) as Hdm.
  pose proof (Z.mod_pos_bound (len (split ch)) 2 ltac:(lia)) as Hb.
  lia.
Qed.

Lemma stripped_has_words (text : str) : stripped text -> text <> [] -> split text <> [].
Proof.
  intros Hs Hne. destruct text as [|c r]; [contradiction|]. destruct Hs as [Hc _].
  apply (words_of_nonblank (c :: r) []). now constructor.
Qed.

Lemma ceil_div_positive (k n : Z) : 0 < n -> 0 < k -> 1 <= ceil_div k n.
Proof.
  intros Hn Hk. unfold ceil_div. apply Z.div_le_lower_bound; lia.
Qed.

(** X19 -- In the UI, from upload to summary: when the text extracted
    from the file is not empty and the chunk size is positive, as the
    slider makes it, a press of the button that ends without exception
    shows at least one chunk summary; the empty result of the pipeline is
    never what the user gets for a file with text. *)
Theorem ui_summary_of_extracted_text {E} (pages : list (extraction E))
    (raw_text model_name final : str) (n : Z) (fp : bool) (ss : list str)
    (w w' : world) :
  App.extract_text_from_pdf (inr pages) = inr raw_text ->
  raw_text <> [] -> 0 < n ->
  App.summarize_button model_name raw_text n fp w = (inr (final, ss), w') ->
  1 <= len ss /\ len ss = ceil_div (len (split raw_text)) n.
Proof.
  intros Hx Hne Hn H.
  destruct (ExtractFacts.ui_extracted_text pages)
    as (t & Ht & Hs & _ & _).
  rewrite Hx in Ht. injection Ht as <-.
  pose proof (stripped_has_words raw_text Hs Hne) as Hw.
  unfold App.summarize_button, bind in H. cbn [App.get_summarizer_clear] in H.
  destruct (App.get_summarizer (Some model_name) _) as [[e|s] w0]; [discriminate|].
  apply app_pipeline_counts in H; [|assumption]. destruct H as [Hlen _].
  split; [|assumption]. rewrite Hlen. apply ceil_div_positive; [assumption|].
  destruct (split raw_text); [contradiction | unfold len; simpl; lia].
Qed.

End WithTransformers.
End PipelineMore.

(** ** The further properties on the capability [Stub.headline] *)
Section MoreExamples.
Import Stub PipelineMore.

Lemma chunk_summaries_in_order_witness :
  calls ui_pass
  = calls fresh ++ chunk_calls (T := headline) (app_bounds 160 60) DEFAULT_MODEL
                     [a; b] [a; b]
  /\ calls cli_pass
     = calls cli_loaded ++ chunk_calls (T := headline) cli_bounds m [a; b] [a; b].
Proof.
  destruct (chunk_summaries_in_order (T := headline)) as [HU HC]. split.
  - apply (HU [a; b] [a; b] 160 60 None fresh ui_pass). reflexivity.
  - apply (HC [a; b] [a; b] m cli_loaded cli_pass). reflexivity.
Defined.

Lemma zero_chunk_size_raises_witness :
  App.summarize_pdf_text (T := headline) a_b 0 true fresh
  = (inl (Builtin ValueError), fresh)
  /\ Cli.main (T := headline) a_b m 0 true fresh = (inl (Builtin ValueError), fresh).
Proof.
  apply (zero_chunk_size_raises (T := headline) a_b m true fresh).
  constructor. reflexivity.
Defined.



Lemma summarize_pdf_text_counts_witness :
  len [a; b] = ceil_div (len (split a_b)) 1
  /\ exists cs,
       calls (snd (App.summarize_pdf_text (T := headline) a_b 1 true fresh))
       = calls fresh ++ cs
       /\ len cs = len [a; b] + (if true && (1 <? len [a; b]) then 1 else 0).
Proof.
  apply (summarize_pdf_text_counts (T := headline) a_b 1 true fresh
           (snd (App.summarize_pdf_text (T := headline) a_b 1 true fresh))
           a [a; b]).
  - lia.
  - reflexivity.
Defined.

Lemma summarize_button_ignores_selected_model_witness :
  App.summarize_button (T := headline) [] a_b 1 true fresh
  = (inl (ModelLoadFailure (T := headline) 0%nat),
     World (T := headline) (lib fresh) [] (requested fresh ++ [[]]) (calls fresh)).
Proof.
  apply (proj2 (proj2 (summarize_button_ignores_selected_model (T := headline)
                         [] a_b 1 true))).
  reflexivity.
Defined.

Lemma cli_stops_without_text_witness :
  fst (Cli.main (T := headline) (of_string "one") m 1 true fresh) <> inr None.
Proof.
  destruct (cli_stops_without_text (T := headline)
              [Extracted (E := nat) (Some (of_string " one "))]
              (of_string "one") m 1 true fresh) as (_ & _ & H).
  - reflexivity.
  - apply H. discriminate.
Defined.

Lemma ui_summary_of_extracted_text_witness :
  1 <= len [a; b] /\ len [a; b] = ceil_div (len (split a_b)) 1.
Proof.
  apply (ui_summary_of_extracted_text (T := headline)
           [Extracted (E := nat) (Some (of_string " a b "))] a_b m a 1 true [a; b]
           fresh (snd (App.summarize_button (T := headline) m a_b 1 true fresh))).
  - reflexivity.
  - discriminate.
  - lia.
  - reflexivity.
Defined.

(** The cache at work: with the default model selected the button has two
    pipelines built, one for the call with the model name and one for the
    call without argument of the final pass; a second pass over chunks,
    after a first one, has none built. *)
Lemma button_builds_two_pipelines :
  requested (snd (App.summarize_button (T := headline) DEFAULT_MODEL a_b 1 true fresh))
  = [DEFAULT_MODEL; DEFAULT_MODEL].
Proof. reflexivity. Qed.

Lemma second_pass_builds_no_pipeline :
  requested (snd (App.summarize_chunks (T := headline) [a] 160 60 None ui_pass))
  = requested ui_pass.
Proof. reflexivity. Qed.

End MoreExamples.
